(** * hashMatcher: a sharded in-memory store of 64-bit hashes with a
      Hamming-distance search and a line-oriented command protocol.

    Shallow embedding of [src/searcher/hashMatcher.cpp].

    Conventions of the model.
    - [uint64_t], [unsigned] and [int] values are integers of [Z]; the
      places where the source truncates are written out with [mod].
    - The data model is LP64 (64-bit [unsigned long]), the one the source
      itself assumes when it prints a [uint64_t] with [%lu].
    - A [std::list<Node>] is a [list Node], newest element first
      ([emplace_front] is [cons]); the array of lists is a list of lists
      read and updated by index.
    - Everything the program cannot decide by itself (how many bytes a
      [recv] returns, whether a [send] or a [pthread_create] succeeds, how
      the worker threads interleave) is read from an explicit plan carried
      by the state.
    - Memory exhaustion ([new], [emplace_front], [emplace_back] throwing)
      is not modelled. *)

From Stdlib Require Import ZArith Lia List Ascii String Bool DecimalString DecimalFacts.
From stdpp Require Import base tactics option list numbers.

Local Open Scope Z_scope.

(** ** Machine integers *)

Module Int.

Definition long_bits : Z := 64.
Definition uint_bits : Z := 32.

Definition ULONG_MAX : Z := 2 ^ long_bits - 1.

Definition in_u64 (x : Z) : Prop := 0 <= x < 2 ^ 64.

Definition to_ulong (x : Z) : Z := x mod 2 ^ long_bits.
Definition to_unsigned (x : Z) : Z := x mod 2 ^ uint_bits.
Definition to_uchar (x : Z) : Z := x mod 2 ^ 8.

(** Number of [1] digits in the binary expansion of a positive. *)
Fixpoint Pos_popcount (p : positive) : Z :=
  match p with
  | xH => 1
  | xO q => Pos_popcount q
  | xI q => 1 + Pos_popcount q
  end.

(** [__builtin_popcountl]: the argument is converted to [unsigned long]. *)
Definition popcountl (x : Z) : Z :=
  match to_ulong x with
  | Zpos p => Pos_popcount p
  | _ => 0
  end.

(** Number of set bits among the [n] lowest positions, position by
    position. *)
Fixpoint low_ones (n : nat) (x : Z) : Z :=
  match n with
  | O => 0
  | S m => Z.b2z (Z.odd x) + low_ones m (Z.div2 x)
  end.

End Int.

(** ** Data model *)

Record Node := mkNode { Node_dbId : Z; Node_pHash : Z }.

Record Match := mkMatch { Match_dbId : Z; Match_distance : Z }.

(** The two lines of the worker's loop body that compute the distance:
    [bitsToCount = queryHash ^ it->pHash] and
    [distance = __builtin_popcountl(bitsToCount)]. *)
Definition distance (queryHash pHash : Z) : Z :=
  let bitsToCount := Z.lxor queryHash pHash in
  Int.popcountl bitsToCount.

(** The spec's wording of the Hamming distance of two 64-bit values: the
    number of bit positions at which they differ. *)
Definition differing_bits (a b : Z) : Z :=
  Z.of_nat (length (filter
    (fun i : nat => Z.testbit a (Z.of_nat i) ≠ Z.testbit b (Z.of_nat i))
    (seq 0 64))).

(** ** Program state

    The globals of the program, the connection's outgoing half, the two
    console streams, and the plans that stand for the environment. *)

(** One line written to [stdout] or [stderr]. *)
Inductive Console :=
| Will_search (hash maxDistance : Z)       (* printf, processCommand *)
| Will_add (dbId hash : Z)                 (* printf, processCommand *)
| Couldnt_send                             (* stderr, processCommand *)
| Invalid_command                          (* stderr, processCommand *)
| Error_reading                            (* perror, readCommands *)
| Command_too_long                         (* stderr, readCommands *)
| Pthread_create_error (rc : Z)            (* printf, search *)
| Connection_established                   (* printf, main *)
| Connection_closed.                       (* printf, main *)

Record State := mkState {
  GBLnodeLists : list (list Node);
  GBLsearchResults : list Match;
  sent : list ascii;                 (* bytes the connection accepted, in order *)
  console : list Console;            (* oldest line first *)
  send_plan : list (option nat);     (* per [send]: [None] fails, [Some k] accepts at most [k] bytes *)
  spawn_plan : list Z;               (* per [pthread_create]: its return code *)
  sched_plan : list (list nat)       (* per [search]: which worker moves next *)
}.

(** [GBLnumCores]: [main] allocates [GBLnodeLists] with [GBLnumCores]
    lists and neither changes afterwards. *)
Definition GBLnumCores (st : State) : Z := Z.of_nat (length (GBLnodeLists st)).

Definition set_nodeLists (l : list (list Node)) (st : State) : State :=
  mkState l (GBLsearchResults st) (sent st) (console st)
          (send_plan st) (spawn_plan st) (sched_plan st).

Definition set_searchResults (r : list Match) (st : State) : State :=
  mkState (GBLnodeLists st) r (sent st) (console st)
          (send_plan st) (spawn_plan st) (sched_plan st).

Definition set_sent (b : list ascii) (st : State) : State :=
  mkState (GBLnodeLists st) (GBLsearchResults st) b (console st)
          (send_plan st) (spawn_plan st) (sched_plan st).

Definition print (c : Console) (st : State) : State :=
  mkState (GBLnodeLists st) (GBLsearchResults st) (sent st) (console st ++ [c])
          (send_plan st) (spawn_plan st) (sched_plan st).

Definition set_send_plan (p : list (option nat)) (st : State) : State :=
  mkState (GBLnodeLists st) (GBLsearchResults st) (sent st) (console st)
          p (spawn_plan st) (sched_plan st).

Definition set_spawn_plan (p : list Z) (st : State) : State :=
  mkState (GBLnodeLists st) (GBLsearchResults st) (sent st) (console st)
          (send_plan st) p (sched_plan st).

Definition set_sched_plan (p : list (list nat)) (st : State) : State :=
  mkState (GBLnodeLists st) (GBLsearchResults st) (sent st) (console st)
          (send_plan st) (spawn_plan st) p.

(** What [main] establishes before the first connection: at least one
    list, and a count that fits [unsigned]. *)
Definition well_formed (st : State) : Prop :=
  1 <= GBLnumCores st < 2 ^ Int.uint_bits.

(** Ways a call does not return to its caller. *)
Inductive Halt :=
| exit (code : Z)        (* the process ends *)
| out_of_bounds          (* an index outside [GBLnodeLists] *)
| index_wraps.           (* see [send_results] *)

Inductive Result (A : Type) :=
| Ok (a : A)
| Halted (h : Halt).

Arguments Ok {A} a.
Arguments Halted {A} h.

Definition and_then {A B : Type} (r : Result A) (k : A -> Result B) : Result B :=
  match r with
  | Ok a => k a
  | Halted h => Halted h
  end.

(** ** add *)

(** [Node(uint64_t dbId, uint64_t pHash)] *)
Definition Node_ctor (dbId pHash : Z) : Node :=
  {| Node_dbId := dbId; Node_pHash := pHash |}.

(** [lists[i].emplace_front(a, b)] *)
Definition emplace_front (i : nat) (a b : Z) (lists : list (list Node)) :
    list (list Node) :=
  alter (cons (Node_ctor a b)) i lists.

(** The [for] loop of [add], [count] iterations from index [i] on. Each
    comparison reads the lists as they are at that moment. *)
Fixpoint add_loop (hash dbId : Z) (count i : nat)
    (lists : list (list Node)) (added : bool) :
    option (list (list Node) * bool) :=
  match count with
  | O => Some (lists, added)
  | S count' =>
      next ← lists !! S i;
      cur ← lists !! i;
      if decide (length next < length cur)%nat
      then add_loop hash dbId count' (S i) (emplace_front (S i) hash dbId lists) true
      else add_loop hash dbId count' (S i) lists added
  end.

(** [void add(uint64_t hash, uint64_t dbId)]. The parameter names are the
    source's; the two values go to the [Node] constructor in this order. *)
Definition add (hash dbId : Z) (st : State) : Result State :=
  let bound := Int.to_unsigned (GBLnumCores st - 1) in
  match add_loop hash dbId (Z.to_nat bound) 0 (GBLnodeLists st) false with
  | None => Halted out_of_bounds
  | Some (lists, true) => Ok (set_nodeLists lists st)
  | Some (lists, false) =>
      match lists !! 0%nat with
      | None => Halted out_of_bounds
      | Some _ => Ok (set_nodeLists (emplace_front 0 hash dbId lists) st)
      end
  end.

(** The insertion policy in the spec's words: go through the pairs
    [(i, i+1)] for [i] from [0] to [N-2]; where list [i+1] is currently
    shorter than list [i], put the entry into list [i+1]; go on to the last
    pair; when no pair qualified, put the entry into list [0]. *)
Definition policy_pair (e : Node) (acc : list (list Node) * bool) (i : nat) :
    list (list Node) * bool :=
  let lists := acc.1 in
  if decide (length (nth (i + 1) lists []) < length (nth i lists []))%nat
  then (<[(i + 1)%nat := e :: nth (i + 1) lists []]> lists, true)
  else acc.

Definition policy (e : Node) (lists : list (list Node)) : list (list Node) :=
  let N := length lists in
  let '(lists', qualified) :=
    fold_left (policy_pair e) (seq 0 (N - 1)) (lists, false) in
  if qualified then lists' else <[0%nat := e :: nth 0 lists' []]> lists'.

(** The pass of [add] as a recursion over the lists themselves: [prev] is
    the present length of the list before [rest]. Returns [rest] after the
    pass and whether a list of it received the entry. *)
Fixpoint pass (e : Node) (prev : nat) (rest : list (list Node)) :
    list (list Node) * bool :=
  match rest with
  | [] => ([], false)
  | next :: rest' =>
      if decide (length next < prev)%nat
      then ((e :: next) :: (pass e (S (length next)) rest').1, true)
      else (next :: (pass e (length next) rest').1, (pass e (length next) rest').2)
  end.

(** Number of entries held by all lists together. *)
Definition total (lists : list (list Node)) : nat := length (concat lists).

(** ** search *)

(** The body of the worker's loop for one [Node]. *)
Definition scan_body (queryHash maxDistance : Z) (results : list Match)
    (it : Node) : list Match :=
  let distance := distance queryHash (Node_pHash it) in
  if decide (distance <= maxDistance)
  then results ++ [mkMatch (Node_dbId it) distance]     (* emplace_back *)
  else results.

(** [searchThread] run from its current position to the end of its list
    without another worker in between. *)
Definition searchThread (queryHash maxDistance : Z) (results : list Match)
    (nodeList : list Node) : list Match :=
  fold_left (scan_body queryHash maxDistance) nodeList results.

(** Worker [i] does one iteration; [workers] holds what each worker has
    still to visit. A finished or absent worker does nothing. *)
Definition worker_step (queryHash maxDistance : Z) (i : nat)
    (workers : list (list Node)) (results : list Match) :
    list (list Node) * list Match :=
  match workers !! i with
  | Some (it :: rest) =>
      (<[i := rest]> workers, scan_body queryHash maxDistance results it)
  | _ => (workers, results)
  end.

Fixpoint run_workers (queryHash maxDistance : Z) (picks : list nat)
    (workers : list (list Node)) (results : list Match) :
    list (list Node) * list Match :=
  match picks with
  | [] => (workers, results)
  | i :: picks' =>
      let '(workers', results') :=
        worker_step queryHash maxDistance i workers results in
      run_workers queryHash maxDistance picks' workers' results'
  end.

(** The [pthread_join] loop returns when every worker has reached the end
    of its list. *)
Definition join_all (queryHash maxDistance : Z)
    (workers : list (list Node)) (results : list Match) : list Match :=
  fold_left (searchThread queryHash maxDistance) workers results.

(** The [pthread_create] loop: the first non-zero return code ends it. *)
Fixpoint create_all (n : nat) (plan : list Z) : option Z * list Z :=
  match n with
  | O => (None, plan)
  | S n' =>
      match plan with
      | [] => (None, [])
      | rc :: plan' =>
          if decide (rc = 0) then create_all n' plan' else (Some rc, plan')
      end
  end.

(** [void search(uint64_t hash, unsigned char maxDistance)] *)
Definition search (hash maxDistance : Z) (st : State) : Result State :=
  let st := set_searchResults [] st in                     (* clear() *)
  match create_all (Z.to_nat (GBLnumCores st)) (spawn_plan st) with
  | (Some rc, plan) =>
      let st := print (Pthread_create_error rc) (set_spawn_plan plan st) in
      Halted (exit 2)
  | (None, plan) =>
      let st := set_spawn_plan plan st in
      let picks := hd [] (sched_plan st) in
      let st := set_sched_plan (tl (sched_plan st)) st in
      let '(workers, results) :=
        run_workers hash maxDistance picks (GBLnodeLists st) (GBLsearchResults st) in
      Ok (set_searchResults (join_all hash maxDistance workers results) st)
  end.

(** What the spec promises of a search: the entries within the threshold,
    each as a [Match]. *)
Definition within (queryHash maxDistance : Z) (e : Node) : Prop :=
  distance queryHash (Node_pHash e) <= maxDistance.

#[global] Instance within_dec (queryHash maxDistance : Z) (e : Node) :
  Decision (within queryHash maxDistance e).
Proof. unfold within. apply _. Defined.

Definition matches_of (queryHash maxDistance : Z) (l : list Node) : list Match :=
  map (fun e => mkMatch (Node_dbId e) (distance queryHash (Node_pHash e)))
      (filter (within queryHash maxDistance) l).

Definition expected_matches (queryHash maxDistance : Z)
    (lists : list (list Node)) : list Match :=
  matches_of queryHash maxDistance (concat lists).

(** ** sscanf

    The fragment of [sscanf] that the two formats of [processCommand] use,
    after ISO C 7.21.6.2, with glibc's behaviour where the standard leaves
    the result open (a value that does not fit saturates, [0x] without a
    digit after it reads as zero). *)

#[global] Instance ascii_eq_decision : EqDecision ascii := ascii_dec.

Definition chars (s : string) : list ascii := list_ascii_of_string s.

Definition code (c : ascii) : Z := Z.of_nat (nat_of_ascii c).

Definition isspace (c : ascii) : bool :=
  (code c =? 32) || ((9 <=? code c) && (code c <=? 13)).

Definition isdigit (c : ascii) : bool := (48 <=? code c) && (code c <=? 57).

Definition isxdigit (c : ascii) : bool :=
  isdigit c || ((97 <=? code c) && (code c <=? 102))
            || ((65 <=? code c) && (code c <=? 70)).

(** Value of a digit in the given base, if it is one. *)
Definition digit_value (base : Z) (c : ascii) : option Z :=
  if isdigit c then Some (code c - 48)
  else if (base =? 16) && isxdigit c
       then Some (if 97 <=? code c then code c - 87 else code c - 55)
       else None.

Fixpoint skip_space (s : list ascii) : list ascii :=
  match s with
  | c :: s' => if isspace c then skip_space s' else s
  | [] => []
  end.

(** The digits at the head of [s]: their value after [acc], how many were
    read on top of [n], and what follows them. *)
Fixpoint scan_digits (base : Z) (s : list ascii) (acc : Z) (n : nat) :
    Z * nat * list ascii :=
  match s with
  | c :: s' =>
      match digit_value base c with
      | Some d => scan_digits base s' (acc * base + d) (S n)
      | None => (acc, n, s)
      end
  | [] => (acc, n, [])
  end.

(** [strtoul] on the digits read: too large a value gives [ULONG_MAX], a
    minus sign negates in [unsigned long]. *)
Definition strtoul_value (negative : bool) (digits : Z) : Z :=
  if decide (Int.ULONG_MAX < digits) then Int.ULONG_MAX
  else if negative then Int.to_ulong (- digits) else digits.

Inductive Scanned :=
| Converted (value : Z) (rest : list ascii)
| Input_failure
| Matching_failure.

(** An optional sign at the head of [s]. *)
Definition scan_sign (s : list ascii) : bool * list ascii :=
  match s with
  | c :: s1 =>
      if decide (c = "-"%char) then (true, s1)
      else if decide (c = "+"%char) then (false, s1)
      else (false, s)
  | [] => (false, [])
  end.

(** A leading [0], which counts as a digit read, and for base 16 an [x]
    after it, which is dropped. *)
Definition scan_prefix (base : Z) (s : list ascii) : nat * list ascii :=
  match s with
  | z :: s' =>
      if decide (z = "0"%char) then
        match s' with
        | x :: s'' =>
            if (base =? 16) && bool_decide (x = "x"%char ∨ x = "X"%char)
            then (1%nat, s'') else (1%nat, s')
        | [] => (1%nat, s')
        end
      else (0%nat, s)
  | [] => (0%nat, s)
  end.

(** One integer conversion, white space already skipped: sign, prefix,
    digits; no digit at all is a matching failure, no input at all an
    input failure. *)
Definition scan_integer (base : Z) (s : list ascii) : Scanned :=
  match s with
  | [] => Input_failure
  | _ :: _ =>
      let '(negative, s1) := scan_sign s in
      let '(lead, s2) := scan_prefix base s1 in
      let '(digits, n, rest) := scan_digits base s2 0 lead in
      if decide (n = 0%nat) then Matching_failure
      else Converted (strtoul_value negative digits) rest
  end.

Inductive Conversion := lx | lu | hhu.

Definition base_of (k : Conversion) : Z :=
  match k with lx => 16 | lu => 10 | hhu => 10 end.

(** The value as the pointed-to object receives it. *)
Definition stored (k : Conversion) (v : Z) : Z :=
  match k with hhu => Int.to_uchar v | _ => v end.

Inductive Directive :=
| Lit (c : ascii)            (* an ordinary character *)
| Space                      (* white space in the format *)
| Conv (k : Conversion).     (* a conversion specification *)

Definition EOF : Z := -1.

Definition items (assigned : list Z) : Z := Z.of_nat (length assigned).

Definition on_input_failure (assigned : list Z) : Z :=
  if decide (assigned = []) then EOF else items assigned.

(** Returns the return code and the values assigned through the pointer
    arguments, in order. *)
Fixpoint sscanf (s : list ascii) (format : list Directive) (assigned : list Z) :
    Z * list Z :=
  match format with
  | [] => (items assigned, assigned)
  | Lit c :: format' =>
      match s with
      | [] => (on_input_failure assigned, assigned)
      | c' :: s' =>
          if decide (c' = c) then sscanf s' format' assigned
          else (items assigned, assigned)
      end
  | Space :: format' => sscanf (skip_space s) format' assigned
  | Conv k :: format' =>
      match scan_integer (base_of k) (skip_space s) with
      | Converted v rest => sscanf rest format' (assigned ++ [stored k v])
      | Input_failure => (on_input_failure assigned, assigned)
      | Matching_failure => (items assigned, assigned)
      end
  end.

(** Number of conversion specifications of a format. *)
Fixpoint convs (format : list Directive) : Z :=
  match format with
  | [] => 0
  | Conv _ :: format' => 1 + convs format'
  | _ :: format' => convs format'
  end.

(** ["match %" SCNx64 " %hhu\n"] *)
Definition format_match : list Directive :=
  map Lit (chars "match") ++ [Space; Conv lx; Space; Conv hhu; Space].

(** ["add %" SCNu64 " %" SCNx64 "\n"] *)
Definition format_add : list Directive :=
  map Lit (chars "add") ++ [Space; Conv lu; Space; Conv lx; Space].

(** ** processCommand *)

Definition decimal (n : Z) : list ascii :=
  chars (NilZero.string_of_uint (N.to_uint (Z.to_N n))).

Definition newline : ascii := ascii_of_nat 10.

(** [sprintf(response, "%" PRIu64 " %u\n", dbId, distance)] *)
Definition response (m : Match) : list ascii :=
  decimal (Match_dbId m) ++ chars " " ++
  decimal (Int.to_unsigned (Match_distance m)) ++ [newline].

(** Modelled from the spec: the declaration of [acceptedSocket], which
    [processCommand] sends on, is in [hashMatcher.h] and not in the
    sources at hand; it is taken to be the connection the command came
    from. Returns what [send] returns. *)
Definition send (data : list ascii) (st : State) : Z * State :=
  match send_plan st with
  | [] => (Z.of_nat (length data), set_sent (sent st ++ data) st)
  | None :: plan => (-1, set_send_plan plan st)
  | Some k :: plan =>
      let accepted := take k data in
      (Z.of_nat (length accepted),
       set_sent (sent st ++ accepted) (set_send_plan plan st))
  end.

(** The body of the response loop, result by result. [responseLen] and
    [numBytesSent] are [unsigned]; a response has at most 32 characters
    for a 64-bit id and an [int] distance. *)
Fixpoint send_loop (results : list Match) (st : State) : State :=
  match results with
  | [] => st
  | m :: results' =>
      let responseLen := Int.to_unsigned (Z.of_nat (length (response m))) in
      let '(rc, st) := send (response m) st in
      let numBytesSent := Int.to_unsigned rc in
      if decide (numBytesSent ≠ responseLen)
      then print Couldnt_send st                        (* break *)
      else send_loop results' st
  end.

(** The response loop. Its index is an [unsigned] compared with a
    [size_t]: with [2^32] results or more it never reaches the size, and
    that case is left out of the model. *)
Definition send_results (st : State) : Result State :=
  if decide (Z.of_nat (length (GBLsearchResults st)) < 2 ^ Int.uint_bits)
  then Ok (send_loop (GBLsearchResults st) st)
  else Halted index_wraps.

(** [void processCommand(int socket, const char* command)] *)
Definition processCommand (command : list ascii) (st : State) : Result State :=
  let '(rc, args) := sscanf command format_match [] in
  if decide (rc = 2) then
    let hash := nth 0 args 0 in
    let maxDistance := nth 1 args 0 in
    let st := print (Will_search hash maxDistance) st in
    and_then (search hash maxDistance st) send_results
  else
    let '(rc, args) := sscanf command format_add [] in
    if decide (rc = 2) then
      let dbId := nth 0 args 0 in
      let hash := nth 1 args 0 in
      let st := print (Will_add dbId hash) st in
      add dbId hash st
    else Ok (print Invalid_command st).

(** The two grammars in the spec's words: white-space delimited, the
    keyword, then the two fields, each of its kind and width. *)
Fixpoint words_from (cur : list ascii) (s : list ascii) : list (list ascii) :=
  match s with
  | [] => if decide (cur = []) then [] else [cur]
  | c :: s' =>
      if isspace c
      then (if decide (cur = []) then [] else [cur]) ++ words_from [] s'
      else words_from (cur ++ [c]) s'
  end.

Definition words (s : list ascii) : list (list ascii) := words_from [] s.

Definition is_number (base bound : Z) (w : list ascii) : bool :=
  match scan_digits base w 0 0 with
  | (v, n, []) => bool_decide (n ≠ 0%nat) && (v <? bound)
  | _ => false
  end.

Definition match_grammar (line : list ascii) : bool :=
  match words line with
  | [k; h; d] =>
      bool_decide (k = chars "match") && is_number 16 (2 ^ 64) h
        && is_number 10 (2 ^ 8) d
  | _ => false
  end.

Definition add_grammar (line : list ascii) : bool :=
  match words line with
  | [k; i; h] =>
      bool_decide (k = chars "add") && is_number 10 (2 ^ 64) i
        && is_number 16 (2 ^ 64) h
  | _ => false
  end.

(** ** readCommands *)

Definition bufferSize : nat := 1024.

(** What one [recv] finds: some bytes, at most [S more] of them, or an
    error. *)
Inductive Arrival :=
| Bytes (more : nat)
| Failure.

(** The incoming half of the connection: the bytes the peer sends before
    it closes, and how they arrive. *)
Record Transport := mkTransport {
  incoming : list ascii;
  recv_plan : list Arrival;
  is_open : bool
}.

(** [recv(socket, p, len, 0)]: the return code, the bytes stored at [p],
    and the connection afterwards. Without a plan everything that fits
    arrives at once. *)
Definition recv (len : nat) (t : Transport) : Z * list ascii * Transport :=
  match recv_plan t with
  | Failure :: plan => (-1, [], mkTransport (incoming t) plan (is_open t))
  | Bytes more :: plan =>
      let n := Nat.min (S more) len in
      (Z.of_nat (length (take n (incoming t))), take n (incoming t),
       mkTransport (drop n (incoming t)) plan (is_open t))
  | [] =>
      (Z.of_nat (length (take len (incoming t))), take len (incoming t),
       mkTransport (drop len (incoming t)) [] (is_open t))
  end.

Definition close (t : Transport) : Transport :=
  mkTransport (incoming t) (recv_plan t) false.

(** Index of the first [c] in [s]. *)
Fixpoint memchr (s : list ascii) (c : ascii) : option nat :=
  match s with
  | [] => None
  | c' :: s' => if decide (c' = c) then Some O else S <$> memchr s' c
  end.

(** A [const char*] read as a string ends at its first zero byte. *)
Fixpoint c_str (s : list ascii) : list ascii :=
  match s with
  | [] => []
  | c :: s' => if decide (c = zero) then [] else c :: c_str s'
  end.

(** How the loop of [readCommands] ended. *)
Inductive Ending :=
| Peer_closed        (* recv returned 0 *)
| Recv_failed        (* recv returned -1 *)
| Too_long.          (* the buffer is full and holds no newline *)

Section Reader.

(** The loops of [readCommands], for any handler of a command line. *)
Context {A : Type} (process : list ascii -> A -> Result A).

(** The inner [while]: [data] is the buffer from [lineStart] to
    [buffer + numBytesFilled]. Returns what is left unprocessed. *)
Fixpoint lines_loop (fuel : nat) (data : list ascii) (a : A) :
    option (Result (list ascii * A)) :=
  match fuel with
  | O => None
  | S fuel' =>
      match memchr data newline with
      | None => Some (Ok (data, a))
      | Some lineEnd =>
          let command := c_str (take lineEnd data) in    (* *lineEnd = '\0' *)
          match process command a with
          | Halted h => Some (Halted h)
          | Ok a' => lines_loop fuel' (drop (S lineEnd) data) a'
          end
      end
  end.

(** The outer [while (true)]: [buffer] is the first [numBytesFilled]
    bytes of the array. *)
Fixpoint read_loop (fuel : nat) (buffer : list ascii) (t : Transport) (a : A) :
    option (Result (Ending * Transport * A)) :=
  match fuel with
  | O => None
  | S fuel' =>
      let '(rc, data, t) := recv (bufferSize - length buffer) t in
      if decide (rc = 0) then Some (Ok (Peer_closed, t, a))
      else if decide (rc = -1) then Some (Ok (Recv_failed, t, a))
      else
        let buffer := buffer ++ data in              (* numBytesFilled += rc *)
        match lines_loop (S (length buffer)) buffer a with
        | None => None
        | Some (Halted h) => Some (Halted h)
        | Some (Ok (rest, a)) =>                     (* memmove *)
            if decide (length rest = bufferSize)
            then Some (Ok (Too_long, t, a))
            else read_loop fuel' rest t a
        end
  end.

Definition read_all (t : Transport) (a : A) :
    option (Result (Ending * Transport * A)) :=
  read_loop (S (length (incoming t))) [] t a.

(** Handling a list of command lines one after the other. *)
Fixpoint process_all (commands : list (list ascii)) (a : A) : Result A :=
  match commands with
  | [] => Ok a
  | c :: commands' => and_then (process c a) (process_all commands')
  end.

End Reader.

(** The line the loop prints when it ends, if any. *)
Definition farewell (e : Ending) (st : State) : State :=
  match e with
  | Peer_closed => st
  | Recv_failed => print Error_reading st
  | Too_long => print Command_too_long st
  end.

(** [void readCommands(int socket)] *)
Definition readCommands (t : Transport) (st : State) :
    option (Result (Ending * Transport * State)) :=
  r ← read_all processCommand t st;
  Some (and_then r (fun '(e, t, st) => Ok (e, t, farewell e st))).

(** One round of the accept loop of [main] from the point where [accept]
    has returned a connection. *)
Definition serve (t : Transport) (st : State) :
    option (Result (Ending * Transport * State)) :=
  let st := print Connection_established st in
  r ← readCommands t st;
  Some (and_then r (fun '(e, t, st) =>
          Ok (e, close t, print Connection_closed st))).

(** The complete lines of a byte string, without their newlines, and what
    follows the last newline. *)
Fixpoint split_lines (s : list ascii) : list (list ascii) * list ascii :=
  match s with
  | [] => ([], [])
  | c :: s' =>
      let '(ls, tail) := split_lines s' in
      if decide (c = newline) then ([] :: ls, tail)
      else match ls with
           | [] => ([], c :: tail)
           | l :: ls' => ((c :: l) :: ls', tail)
           end
  end.

(** The lines that fit the buffer with their newline, up to the first
    that does not, and how reading ends after them. *)
Fixpoint within_budget (ls : list (list ascii)) (tail : list ascii) :
    list (list ascii) * Ending :=
  match ls with
  | [] => ([], if decide (bufferSize <= length tail)%nat then Too_long else Peer_closed)
  | l :: ls' =>
      if decide (length l < bufferSize)%nat
      then let '(ok, e) := within_budget ls' tail in (l :: ok, e)
      else ([], Too_long)
  end.

Definition framing (s : list ascii) : list (list ascii) * Ending :=
  let '(ls, tail) := split_lines s in within_budget ls tail.

(** A store whose lists have the given contents and whose plans are
    empty: every [send] and [pthread_create] succeeds, workers run one
    after the other. *)
Definition store (lists : list (list Node)) : State :=
  mkState lists [] [] [] [] [] [].

(** The byte string of the given lines, each ended by a newline. *)
Definition unlines (ls : list (list ascii)) : list ascii :=
  concat (map (fun l => l ++ [newline]) ls).

(** A handler that only writes down the command lines it is given. *)
Definition record (command : list ascii) (seen : list (list ascii)) :
    Result (list (list ascii)) :=
  Ok (seen ++ [command]).

(** What a run of the reader did, leaving aside the connection. *)
Definition verdict {A : Type} (r : option (Result (Ending * Transport * A))) :
    option (Result (Ending * A)) :=
  r' ← r; Some (and_then r' (fun '(e, _, a) => Ok (e, a))).

(** Several calls of [add] one after the other, each with its pair of
    arguments, as a sequence of [add] commands makes them. *)
Definition add_all (pairs : list (Z * Z)) (st : State) : Result State :=
  fold_left (fun r p => and_then r (add p.1 p.2)) pairs (Ok st).

(** The sizes of the lists, in order. *)
Definition sizes (st : State) : list nat := map length (GBLnodeLists st).

(** What holds of the store as long as the program runs: at least one
    list, and entries whose fields are 64-bit values. *)
Definition store_ok (st : State) : Prop :=
  well_formed st /\
  Forall (fun e => Int.in_u64 (Node_dbId e) /\ Int.in_u64 (Node_pHash e))
         (concat (GBLnodeLists st)).

(** * Verification *)

(** ** Distance *)

Section Popcount.

Import Int.

Lemma Pos_popcount_low_ones (n : nat) :
  forall p : positive, Zpos p < 2 ^ Z.of_nat n ->
    Pos_popcount p = low_ones n (Zpos p).
Proof.
  induction n as [|n IH]; intros p Hp.
  - change (2 ^ Z.of_nat 0) with 1 in Hp. lia.
  - rewrite Nat2Z.inj_succ, Z.pow_succ_r in Hp by lia.
    destruct p as [q|q|]; cbn [Pos_popcount low_ones].
    + rewrite (IH q) by lia. reflexivity.
    + rewrite (IH q) by lia. reflexivity.
    + clear. induction n as [|n IH]; [reflexivity|].
      cbn [low_ones] in *. cbn in *. lia.
Qed.

Lemma low_ones_0 (n : nat) : low_ones n 0 = 0.
Proof. induction n as [|n IH]; [reflexivity|]. cbn [low_ones]. exact IH. Qed.

Lemma popcountl_low_ones (x : Z) : popcountl x = low_ones 64 (to_ulong x).
Proof.
  unfold popcountl.
  assert (H : 0 <= to_ulong x < 2 ^ 64) by (apply Z.mod_pos_bound; reflexivity).
  destruct (to_ulong x) as [|p|p].
  - symmetry. apply low_ones_0.
  - apply (Pos_popcount_low_ones 64). lia.
  - lia.
Qed.

(** [low_ones] counts the positions whose bit is set. *)
Lemma low_ones_filter (n : nat) :
  forall x : Z,
    low_ones n x =
    Z.of_nat (length (filter (fun i : nat => Z.testbit x (Z.of_nat i) = true)
                             (seq 0 n))).
Proof.
  induction n as [|n IH]; intros x; [reflexivity|].
  cbn [low_ones seq]. rewrite filter_cons.
  rewrite <- seq_shift, IH.
  assert (Hlen : length (filter (fun i : nat => Z.testbit x (Z.of_nat i) = true)
                                (map S (seq 0 n)))
               = length (filter (fun i : nat => Z.testbit (Z.div2 x) (Z.of_nat i) = true)
                                (seq 0 n))).
  { generalize (seq 0 n). intros l. induction l as [|i l IHl]; [reflexivity|].
    cbn [map]. rewrite !filter_cons.
    assert (Hb : Z.testbit x (Z.of_nat (S i)) = Z.testbit (Z.div2 x) (Z.of_nat i)).
    { rewrite Nat2Z.inj_succ, Z.div2_spec, Z.shiftr_spec by lia.
      f_equal; lia. }
    rewrite Hb.
    destruct (decide (Z.testbit (Z.div2 x) (Z.of_nat i) = true));
      cbn [length]; rewrite IHl; reflexivity. }
  change (Z.of_nat 0) with 0. rewrite Z.bit0_odd.
  destruct (decide (Z.odd x = true)) as [Ho|Ho].
  - rewrite Ho. cbn [length Z.b2z]. rewrite Hlen. lia.
  - apply not_true_is_false in Ho. rewrite Ho. cbn [Z.b2z]. rewrite Hlen. lia.
Qed.

Lemma filter_length_ext {A} (P Q : A -> Prop)
    `{!forall x, Decision (P x)} `{!forall x, Decision (Q x)} (l : list A) :
  (forall x, In x l -> (P x <-> Q x)) ->
  length (filter P l) = length (filter Q l).
Proof.
  induction l as [|a l IH]; intros Hext; [reflexivity|].
  rewrite !filter_cons.
  assert (Ha : P a <-> Q a) by (apply Hext; left; reflexivity).
  assert (Hl : length (filter P l) = length (filter Q l))
    by (apply IH; intros y Hy; apply Hext; right; exact Hy).
  destruct (decide (P a)), (decide (Q a)); cbn [length]; tauto || lia.
Qed.

Lemma distance_differing_bits (a b : Z) :
  in_u64 a -> in_u64 b -> distance a b = differing_bits a b.
Proof.
  intros Ha Hb. unfold distance, differing_bits.
  rewrite popcountl_low_ones, low_ones_filter. f_equal.
  apply filter_length_ext. intros i Hi. apply in_seq in Hi.
  unfold to_ulong, long_bits. rewrite Z.mod_pow2_bits_low by lia.
  rewrite Z.lxor_spec.
  destruct (Z.testbit a (Z.of_nat i)), (Z.testbit b (Z.of_nat i));
    cbn; split; congruence.
Qed.

Lemma distance_sym (a b : Z) : distance a b = distance b a.
Proof. unfold distance. rewrite Z.lxor_comm. reflexivity. Qed.

Lemma distance_self (a : Z) : distance a a = 0.
Proof. unfold distance. rewrite Z.lxor_nilpotent. reflexivity. Qed.

Lemma low_ones_range (n : nat) : forall x : Z, 0 <= low_ones n x <= Z.of_nat n.
Proof.
  induction n as [|n IH]; intros x; cbn [low_ones]; [lia|].
  specialize (IH (Z.div2 x)). destruct (Z.odd x); cbn [Z.b2z]; lia.
Qed.

Lemma distance_range (a b : Z) : 0 <= distance a b <= 64.
Proof.
  unfold distance. rewrite popcountl_low_ones.
  apply (low_ones_range 64).
Qed.

End Popcount.

(** ** add *)

Section Add.

Variables hash dbId : Z.

Local Abbreviation e := (Node_ctor hash dbId).

Lemma emplace_front_middle (pre : list (list Node)) (l : list Node)
    (post : list (list Node)) :
  emplace_front (length pre) hash dbId (pre ++ l :: post) = pre ++ (e :: l) :: post.
Proof.
  unfold emplace_front.
  replace (length pre) with (length pre + 0)%nat by lia.
  rewrite alter_app_r. reflexivity.
Qed.

(** The loop of the source, run to the last pair, is [pass]. *)
Lemma add_loop_pass (rest : list (list Node)) :
  forall (pre : list (list Node)) (cur : list Node) (added : bool),
    add_loop hash dbId (length rest) (length pre) (pre ++ cur :: rest) added =
    Some (pre ++ cur :: (pass e (length cur) rest).1,
          added || (pass e (length cur) rest).2).
Proof.
  induction rest as [|next rest IH]; intros pre cur added.
  - cbn. rewrite orb_false_r. reflexivity.
  - cbn [length add_loop pass].
    assert (Hn : (pre ++ cur :: next :: rest) !! S (length pre) = Some next).
    { replace (pre ++ cur :: next :: rest) with ((pre ++ [cur]) ++ next :: rest)
        by (rewrite <- app_assoc; reflexivity).
      replace (S (length pre)) with (length (pre ++ [cur]))
        by (rewrite length_app; cbn; lia).
      apply list_lookup_middle. reflexivity. }
    assert (Hc : (pre ++ cur :: next :: rest) !! length pre = Some cur)
      by (apply list_lookup_middle; reflexivity).
    rewrite Hn, Hc. cbn [mbind option_bind].
    assert (Hshift : forall l, pre ++ cur :: l :: rest = (pre ++ [cur]) ++ l :: rest)
      by (intros l; rewrite <- app_assoc; reflexivity).
    assert (Hlen : S (length pre) = length (pre ++ [cur]))
      by (rewrite length_app; cbn; lia).
    destruct (decide (length next < length cur)%nat) as [Hlt|Hge].
    + rewrite Hshift, Hlen, emplace_front_middle, IH.
      cbn [fst snd length]. rewrite <- app_assoc, orb_true_r. reflexivity.
    + rewrite Hshift, Hlen, IH.
      cbn [fst snd]. rewrite <- app_assoc. reflexivity.
Qed.

(** So is the fold of the spec's wording. *)
Lemma policy_pass (rest : list (list Node)) :
  forall (pre : list (list Node)) (cur : list Node) (qualified : bool),
    fold_left (policy_pair e) (seq (length pre) (length rest))
              (pre ++ cur :: rest, qualified) =
    (pre ++ cur :: (pass e (length cur) rest).1,
     qualified || (pass e (length cur) rest).2).
Proof.
  induction rest as [|next rest IH]; intros pre cur qualified.
  - cbn. rewrite orb_false_r. reflexivity.
  - cbn [length seq fold_left pass]. unfold policy_pair at 2. cbn [fst].
    assert (Hshift : forall l, pre ++ cur :: l :: rest = (pre ++ [cur]) ++ l :: rest)
      by (intros l; rewrite <- app_assoc; reflexivity).
    assert (Hlen : S (length pre) = length (pre ++ [cur]))
      by (rewrite length_app; cbn; lia).
    assert (Hn : nth (length pre + 1) (pre ++ cur :: next :: rest) [] = next).
    { apply nth_lookup_Some. rewrite Hshift.
      replace (length pre + 1)%nat with (length (pre ++ [cur])) by lia.
      apply list_lookup_middle. reflexivity. }
    assert (Hc : nth (length pre) (pre ++ cur :: next :: rest) [] = cur)
      by (apply nth_lookup_Some, list_lookup_middle; reflexivity).
    rewrite Hn, Hc.
    destruct (decide (length next < length cur)%nat) as [Hlt|Hge].
    + replace (<[(length pre + 1)%nat:=e :: next]> (pre ++ cur :: next :: rest))
        with ((pre ++ [cur]) ++ (e :: next) :: rest).
      2:{ rewrite Hshift.
          replace (length pre + 1)%nat with (length (pre ++ [cur]) + 0)%nat by lia.
          rewrite insert_app_r. reflexivity. }
      rewrite Hlen, IH. cbn [fst snd length].
      rewrite <- app_assoc, orb_true_r. reflexivity.
    + rewrite Hshift, Hlen, IH. cbn [fst snd].
      rewrite <- app_assoc. reflexivity.
Qed.

Lemma pass_unqualified (rest : list (list Node)) :
  forall prev : nat, (pass e prev rest).2 = false -> (pass e prev rest).1 = rest.
Proof.
  induction rest as [|next rest IH]; intros prev H; [reflexivity|].
  cbn [pass] in *. destruct (decide (length next < prev)%nat); [discriminate|].
  cbn [fst snd] in *. rewrite IH by exact H. reflexivity.
Qed.

Lemma pass_length (rest : list (list Node)) :
  forall prev : nat, length (pass e prev rest).1 = length rest.
Proof.
  induction rest as [|next rest IH]; intros prev; [reflexivity|].
  cbn [pass]. destruct (decide (length next < prev)%nat);
    cbn [fst length]; rewrite IH; reflexivity.
Qed.

(** A list comes out of the pass as it was or with the entry in front. *)
Lemma pass_lookup (rest : list (list Node)) :
  forall (prev j : nat) (next : list Node),
    rest !! j = Some next ->
    let before := match j with
                  | O => prev
                  | S j' => length (default [] ((pass e prev rest).1 !! j'))
                  end in
    (pass e prev rest).1 !! j =
    Some (if decide (length next < before)%nat then e :: next else next).
Proof.
  induction rest as [|l rest IH]; intros prev j next Hj; [discriminate|].
  destruct j as [|j].
  - cbn in Hj. injection Hj as ->. cbn [pass].
    destruct (decide (length next < prev)%nat); reflexivity.
  - cbn in Hj. cbn [pass].
    destruct (decide (length l < prev)%nat) as [Hlt|Hge]; cbn [fst].
    + specialize (IH (S (length l)) j next Hj). cbn zeta in IH.
      rewrite lookup_cons_ne_0 by lia. cbn [pred]. rewrite IH.
      destruct j as [|j]; reflexivity.
    + specialize (IH (length l) j next Hj). cbn zeta in IH.
      rewrite lookup_cons_ne_0 by lia. cbn [pred]. rewrite IH.
      destruct j as [|j]; reflexivity.
Qed.

Lemma pass_total (rest : list (list Node)) :
  forall prev : nat,
    (total rest <= total (pass e prev rest).1 <= total rest + length rest)%nat /\
    ((pass e prev rest).2 = true -> (total rest < total (pass e prev rest).1)%nat).
Proof.
  unfold total.
  induction rest as [|next rest IH]; intros prev.
  - cbn. split; [lia|discriminate].
  - cbn [pass]. destruct (decide (length next < prev)%nat) as [Hlt|Hge];
      cbn [fst snd concat length]; rewrite ?length_app; cbn [length].
    + destruct (IH (S (length next))) as [Hb _]. split; [lia|intros _; lia].
    + destruct (IH (length next)) as [Hb Hq].
      split; [lia|]. intros Hq'. specialize (Hq Hq'). lia.
Qed.

(** What [add] returns on a state with at least one list, in terms of
    [pass]. *)
Lemma add_pass (st : State) (first : list Node) (rest : list (list Node)) :
  well_formed st ->
  GBLnodeLists st = first :: rest ->
  add hash dbId st =
  Ok (set_nodeLists
        (if (pass e (length first) rest).2
         then first :: (pass e (length first) rest).1
         else (e :: first) :: rest) st).
Proof.
  intros [Hlo Hhi] Hl. unfold add, GBLnumCores in *. rewrite Hl in *.
  cbn [length] in *.
  assert (Hb : Z.to_nat (Int.to_unsigned (Z.of_nat (S (length rest)) - 1))
               = length rest).
  { unfold Int.to_unsigned. rewrite Z.mod_small by lia. lia. }
  rewrite Hb.
  pose proof (add_loop_pass rest [] first false) as Hloop.
  cbn [length app orb] in Hloop. rewrite Hloop.
  destruct (pass e (length first) rest).2 eqn:Hq; [reflexivity|].
  cbn. rewrite (pass_unqualified _ _ Hq). reflexivity.
Qed.

End Add.

(** ** search *)

Section Search.

Variables queryHash maxDistance : Z.

Local Abbreviation matches := (matches_of queryHash maxDistance).
Local Abbreviation expected := (expected_matches queryHash maxDistance).

Lemma matches_app (l1 l2 : list Node) :
  matches (l1 ++ l2) = matches l1 ++ matches l2.
Proof. unfold matches_of. rewrite list.filter_app, map_app. reflexivity. Qed.

Lemma expected_cons (l : list Node) (ws : list (list Node)) :
  expected (l :: ws) = matches l ++ expected ws.
Proof. unfold expected_matches. cbn [concat]. apply matches_app. Qed.

Lemma expected_app (ws1 ws2 : list (list Node)) :
  expected (ws1 ++ ws2) = expected ws1 ++ expected ws2.
Proof. unfold expected_matches. rewrite concat_app. apply matches_app. Qed.

Lemma scan_body_matches (results : list Match) (it : Node) :
  scan_body queryHash maxDistance results it = results ++ matches [it].
Proof.
  unfold scan_body, matches_of. rewrite filter_cons, filter_nil.
  unfold within.
  destruct (decide (distance queryHash (Node_pHash it) <= maxDistance));
    cbn [map]; [reflexivity|]. rewrite app_nil_r. reflexivity.
Qed.

Lemma searchThread_matches (nodeList : list Node) :
  forall results : list Match,
    searchThread queryHash maxDistance results nodeList =
    results ++ matches nodeList.
Proof.
  unfold searchThread.
  induction nodeList as [|it l IH]; intros results; cbn [fold_left].
  - unfold matches_of. rewrite filter_nil. cbn. rewrite app_nil_r. reflexivity.
  - rewrite IH, scan_body_matches, <- app_assoc.
    change (it :: l) with ([it] ++ l). rewrite matches_app. reflexivity.
Qed.

Lemma join_all_expected (workers : list (list Node)) :
  forall results : list Match,
    join_all queryHash maxDistance workers results = results ++ expected workers.
Proof.
  unfold join_all.
  induction workers as [|w ws IH]; intros results; cbn [fold_left].
  - unfold expected_matches, matches_of. cbn. rewrite app_nil_r. reflexivity.
  - rewrite IH, searchThread_matches, <- app_assoc, expected_cons. reflexivity.
Qed.

(** One step of one worker moves a match, if any, from what is still to
    come to what has been collected. *)
Lemma worker_step_perm (i : nat) (workers : list (list Node))
    (results : list Match) :
  (worker_step queryHash maxDistance i workers results).2
    ++ expected (worker_step queryHash maxDistance i workers results).1
  ≡ₚ results ++ expected workers.
Proof.
  unfold worker_step.
  destruct (workers !! i) as [[|it rest]|] eqn:Hi; cbn [fst snd]; try reflexivity.
  pose proof (lookup_lt_Some _ _ _ Hi) as Hlt.
  rewrite insert_take_drop by exact Hlt.
  rewrite <- (take_drop_middle workers i (it :: rest) Hi) at 3.
  rewrite !expected_app, !expected_cons, scan_body_matches.
  change (it :: rest) with ([it] ++ rest). rewrite matches_app.
  set (m := matches [it]). set (a := expected (take i workers)).
  set (b := matches rest). set (c := expected (drop (S i) workers)).
  rewrite <- !app_assoc. apply Permutation_app_head.
  rewrite !app_assoc. do 2 apply Permutation_app_tail.
  apply Permutation_app_comm.
Qed.

Lemma run_workers_perm (picks : list nat) :
  forall (workers : list (list Node)) (results : list Match),
    (run_workers queryHash maxDistance picks workers results).2
      ++ expected (run_workers queryHash maxDistance picks workers results).1
    ≡ₚ results ++ expected workers.
Proof.
  induction picks as [|i picks IH]; intros workers results; cbn [run_workers].
  - reflexivity.
  - pose proof (worker_step_perm i workers results) as Hstep.
    destruct (worker_step queryHash maxDistance i workers results) as [ws' res'].
    cbn [fst snd] in Hstep. rewrite IH. exact Hstep.
Qed.


Lemma create_all_succeeds (n : nat) :
  forall plan : list Z,
    Forall (fun rc => rc = 0) (take n plan) ->
    exists plan', create_all n plan = (None, plan').
Proof.
  induction n as [|n IH]; intros plan H; cbn [create_all].
  - eexists; reflexivity.
  - destruct plan as [|rc plan]; [eexists; reflexivity|].
    cbn [take] in H. inversion H as [|? ? Hrc Hrest]; subst.
    rewrite decide_True by reflexivity. apply IH. exact Hrest.
Qed.

(** What [search] leaves behind when every worker could be started. *)
Lemma search_outcome (st : State) :
  Forall (fun rc => rc = 0) (take (length (GBLnodeLists st)) (spawn_plan st)) ->
  exists st' : State,
    search queryHash maxDistance st = Ok st' /\
    GBLsearchResults st' ≡ₚ expected (GBLnodeLists st) /\
    GBLnodeLists st' = GBLnodeLists st /\
    sent st' = sent st /\ console st' = console st /\
    send_plan st' = send_plan st.
Proof.
  intros Hspawn. unfold search.
  destruct (create_all_succeeds _ _ Hspawn) as [plan' Hc].
  unfold GBLnumCores. rewrite Nat2Z.id.
  cbn [set_searchResults GBLnodeLists spawn_plan]. rewrite Hc.
  cbn [set_spawn_plan set_sched_plan set_searchResults
       GBLnodeLists GBLsearchResults sched_plan].
  pose proof (run_workers_perm (hd [] (sched_plan st)) (GBLnodeLists st) []) as Hrun.
  destruct (run_workers queryHash maxDistance (hd [] (sched_plan st))
                        (GBLnodeLists st) []) as [ws res].
  cbn [fst snd] in Hrun.
  eexists. split; [reflexivity|].
  cbn [set_searchResults GBLsearchResults GBLnodeLists sent console send_plan].
  rewrite join_all_expected. repeat split. exact Hrun.
Qed.

End Search.

(** ** readCommands *)

Section Lines.

Lemma memchr_None (s : list ascii) (c : ascii) : memchr s c = None -> c ∉ s.
Proof.
  induction s as [|c' s IH]; cbn [memchr]; intros H.
  - apply not_elem_of_nil.
  - destruct (decide (c' = c)) as [|Hne]; [discriminate|].
    destruct (memchr s c); [discriminate|].
    apply not_elem_of_cons. split; [congruence | apply IH; reflexivity].
Qed.

Lemma memchr_Some (s : list ascii) (c : ascii) :
  forall i : nat,
    memchr s c = Some i ->
    (c ∉ take i s) /\ s = take i s ++ c :: drop (S i) s.
Proof.
  induction s as [|c' s IH]; cbn [memchr]; intros i H; [discriminate|].
  destruct (decide (c' = c)) as [->|Hne].
  - injection H as <-. split; [apply not_elem_of_nil | reflexivity].
  - destruct (memchr s c) as [j|]; [|discriminate].
    injection H as <-. destruct (IH j eq_refl) as [Hn Hs].
    cbn [take drop app]. split.
    + apply not_elem_of_cons. split; [congruence | exact Hn].
    + f_equal. exact Hs.
Qed.

Lemma split_lines_plain (l : list ascii) :
  newline ∉ l -> split_lines l = ([], l).
Proof.
  induction l as [|c l IH]; intros H; [reflexivity|].
  apply not_elem_of_cons in H as [Hc Hl].
  cbn [split_lines]. rewrite (IH Hl).
  rewrite decide_False by congruence. reflexivity.
Qed.

Lemma split_lines_line (l s : list ascii) :
  newline ∉ l ->
  split_lines (l ++ newline :: s) = (l :: (split_lines s).1, (split_lines s).2).
Proof.
  induction l as [|c l IH]; intros H.
  - cbn [app split_lines]. destruct (split_lines s) as [ls tail].
    rewrite decide_True by reflexivity. reflexivity.
  - apply not_elem_of_cons in H as [Hc Hl].
    cbn [app split_lines]. rewrite (IH Hl).
    rewrite decide_False by congruence. reflexivity.
Qed.

Lemma split_lines_app (s1 s2 : list ascii) :
  split_lines (s1 ++ s2) =
  ((split_lines s1).1 ++ (split_lines ((split_lines s1).2 ++ s2)).1,
   (split_lines ((split_lines s1).2 ++ s2)).2).
Proof.
  induction s1 as [|c s1 IH].
  - cbn. destruct (split_lines s2); reflexivity.
  - cbn [app split_lines]. rewrite IH.
    destruct (split_lines s1) as [ls1 t1]. cbn [fst snd].
    destruct (decide (c = newline)) as [Hc|Hc]; [reflexivity|].
    destruct ls1 as [|l ls1]; cbn [fst snd app]; [|reflexivity].
    cbn [split_lines]. destruct (split_lines (t1 ++ s2)) as [ls2 t2].
    rewrite decide_False by exact Hc. destruct ls2; reflexivity.
Qed.

(** Every byte is in one line, is the newline of one, or is in what
    follows the last newline. *)
Lemma split_lines_size (s : list ascii) :
  length s =
  (length (concat (map (fun l => l ++ [newline]) (split_lines s).1))
   + length (split_lines s).2)%nat.
Proof.
  induction s as [|c s IH]; [reflexivity|].
  cbn [split_lines]. destruct (split_lines s) as [ls tail]. cbn [fst snd] in IH.
  destruct (decide (c = newline)).
  - cbn [fst snd map concat app length]. lia.
  - destruct ls as [|l ls]; cbn [fst snd map concat app length] in *; [lia|].
    rewrite !length_app in *. cbn [length] in *. lia.
Qed.

Lemma split_lines_fit (s : list ascii) :
  Forall (fun l => length l < length s)%nat (split_lines s).1 /\
  (length (split_lines s).2 <= length s)%nat /\
  ((split_lines s).1 <> [] -> length (split_lines s).2 < length s)%nat.
Proof.
  pose proof (split_lines_size s) as H.
  destruct (split_lines s) as [ls tail]. cbn [fst snd] in *.
  split; [|split; [lia|]].
  - apply Forall_forall. intros l Hl.
    apply in_split in Hl as (ls1 & ls2 & ->).
    rewrite map_app, concat_app, length_app in H.
    cbn [map concat] in H. rewrite !length_app in H. cbn [length] in H. lia.
  - destruct ls as [|l ls]; [congruence|]. intros _.
    cbn [map concat] in H. rewrite !length_app in H. cbn [length] in H. lia.
Qed.

Lemma split_lines_tail (s : list ascii) : newline ∉ (split_lines s).2.
Proof.
  induction s as [|c s IH]; [apply not_elem_of_nil|].
  cbn [split_lines]. destruct (split_lines s) as [ls tail]. cbn [snd] in IH.
  destruct (decide (c = newline)); [exact IH|].
  destruct ls; cbn [snd]; [|exact IH].
  apply not_elem_of_cons. split; [congruence | exact IH].
Qed.

Lemma split_lines_unlines (ls : list (list ascii)) (s : list ascii) :
  Forall (fun l => newline ∉ l) ls ->
  split_lines (unlines ls ++ s) = (ls ++ (split_lines s).1, (split_lines s).2).
Proof.
  unfold unlines.
  induction ls as [|l ls IH]; intros H.
  - cbn. destruct (split_lines s); reflexivity.
  - inversion H as [|? ? Hl Hls]; subst.
    cbn [map concat]. rewrite <- !app_assoc. cbn [app].
    rewrite (split_lines_line _ _ Hl), (IH Hls). reflexivity.
Qed.

Lemma within_budget_app (ls1 ls2 : list (list ascii)) (tail : list ascii) :
  Forall (fun l => length l < bufferSize)%nat ls1 ->
  within_budget (ls1 ++ ls2) tail =
  (ls1 ++ (within_budget ls2 tail).1, (within_budget ls2 tail).2).
Proof.
  induction ls1 as [|l ls1 IH]; intros H.
  - cbn [app]. destruct (within_budget ls2 tail); reflexivity.
  - inversion H as [|? ? Hl Hls]; subst.
    cbn [app within_budget]. rewrite decide_True by exact Hl.
    rewrite (IH Hls). reflexivity.
Qed.

Lemma framing_app (b q : list ascii) :
  Forall (fun l => length l < bufferSize)%nat (split_lines b).1 ->
  framing (b ++ q) =
  ((split_lines b).1 ++ (framing ((split_lines b).2 ++ q)).1,
   (framing ((split_lines b).2 ++ q)).2).
Proof.
  intros H. unfold framing. rewrite split_lines_app.
  destruct (split_lines ((split_lines b).2 ++ q)) as [ls2 t2]. cbn [fst snd].
  apply within_budget_app. exact H.
Qed.

Lemma framing_unlines (ls : list (list ascii)) (s : list ascii) :
  Forall (fun l => (newline ∉ l) /\ (length l < bufferSize)%nat) ls ->
  framing (unlines ls ++ s) = (ls ++ (framing s).1, (framing s).2).
Proof.
  intros H. unfold framing.
  rewrite split_lines_unlines by (eapply List.Forall_impl; [|exact H]; cbn; tauto).
  destruct (split_lines s) as [ls2 t2]. cbn [fst snd].
  apply within_budget_app. eapply List.Forall_impl; [|exact H]. cbn; tauto.
Qed.

Lemma framing_short (b : list ascii) :
  newline ∉ b -> (length b < bufferSize)%nat -> framing b = ([], Peer_closed).
Proof.
  intros Hn Hlen. unfold framing. rewrite (split_lines_plain _ Hn).
  cbn [within_budget]. rewrite decide_False by lia. reflexivity.
Qed.

Lemma framing_long (b q : list ascii) :
  newline ∉ b -> (bufferSize <= length b)%nat -> framing (b ++ q) = ([], Too_long).
Proof.
  intros Hn Hlen. unfold framing.
  destruct (memchr q newline) as [i|] eqn:Hm.
  - destruct (memchr_Some _ _ _ Hm) as [Hni Hq].
    rewrite Hq, app_assoc, split_lines_line.
    2:{ apply not_elem_of_app. split; assumption. }
    cbn [within_budget fst snd].
    rewrite decide_False; [reflexivity|]. rewrite length_app. lia.
  - apply memchr_None in Hm. rewrite split_lines_plain.
    2:{ apply not_elem_of_app. split; assumption. }
    cbn [within_budget]. rewrite decide_True; [reflexivity|].
    rewrite length_app. lia.
Qed.

End Lines.

Section ReaderProofs.

Context {A : Type} (process : list ascii -> A -> Result A).

Lemma and_then_assoc {B C D : Type} (r : Result B) (f : B -> Result C)
    (g : C -> Result D) :
  and_then (and_then r f) g = and_then r (fun b => and_then (f b) g).
Proof. destruct r; reflexivity. Qed.

Lemma process_all_app (c1 c2 : list (list ascii)) :
  forall a : A,
    process_all process (c1 ++ c2) a =
    and_then (process_all process c1 a) (process_all process c2).
Proof.
  induction c1 as [|c c1 IH]; intros a; [reflexivity|].
  cbn [app process_all]. destruct (process c a); cbn [and_then]; [apply IH|reflexivity].
Qed.

(** The inner loop handles the complete lines of the buffer in order and
    leaves what follows the last newline. *)
Lemma lines_loop_split (fuel : nat) :
  forall (data : list ascii) (a : A),
    (length data < fuel)%nat ->
    lines_loop process fuel data a =
    Some (and_then (process_all process (map c_str (split_lines data).1) a)
                   (fun a' => Ok ((split_lines data).2, a'))).
Proof.
  induction fuel as [|fuel IH]; intros data a Hlen; [lia|].
  cbn [lines_loop]. destruct (memchr data newline) as [i|] eqn:Hm.
  - destruct (memchr_Some _ _ _ Hm) as [Hni Hd].
    remember (take i data) as l eqn:El.
    remember (drop (S i) data) as rest eqn:Er.
    clear El Er Hm. subst data.
    rewrite (split_lines_line _ _ Hni). cbn [fst snd map process_all].
    rewrite length_app in Hlen. cbn [length] in Hlen.
    destruct (process (c_str l) a) as [a'|h]; cbn [and_then]; [|reflexivity].
    apply IH. lia.
  - apply memchr_None in Hm. rewrite (split_lines_plain _ Hm). reflexivity.
Qed.

(** One round of the outer loop: the complete lines in the buffer are
    handled before the next [recv]. *)
Lemma read_loop_round (fuel : nat) (buffer data : list ascii)
    (t t1 : Transport) (a : A) :
  recv (bufferSize - length buffer) t = (Z.of_nat (length data), data, t1) ->
  data <> [] ->
  read_loop process (S fuel) buffer t a =
  match process_all process (map c_str (split_lines (buffer ++ data)).1) a with
  | Halted h => Some (Halted h)
  | Ok a' =>
      if decide (length (split_lines (buffer ++ data)).2 = bufferSize)
      then Some (Ok (Too_long, t1, a'))
      else read_loop process fuel (split_lines (buffer ++ data)).2 t1 a'
  end.
Proof.
  intros Hrecv Hdata. cbn [read_loop]. rewrite Hrecv.
  assert (Hlen : (0 < length data)%nat) by (destruct data; [congruence|cbn; lia]).
  rewrite !decide_False by lia.
  rewrite lines_loop_split by lia.
  destruct (process_all process (map c_str (split_lines (buffer ++ data)).1) a);
    reflexivity.
Qed.

Lemma recv_spec (len : nat) (t : Transport) :
  (0 < len)%nat ->
  Forall (fun a => a <> Failure) (recv_plan t) ->
  exists (data : list ascii) (t' : Transport),
    recv len t = (Z.of_nat (length data), data, t') /\
    incoming t = data ++ incoming t' /\
    (length data <= len)%nat /\
    (data = [] -> incoming t = []) /\
    Forall (fun a => a <> Failure) (recv_plan t') /\
    is_open t' = is_open t.
Proof.
  intros Hlen Hplan. unfold recv.
  destruct (recv_plan t) as [|[more|] plan] eqn:Hp.
  - eexists _, _. split; [reflexivity|]. cbn [incoming recv_plan is_open].
    split; [symmetry; apply take_drop|]. split; [rewrite length_take; lia|].
    split; [|split; [constructor|reflexivity]].
    intros H. destruct (incoming t) as [|c s]; [reflexivity|].
    destruct len; [lia|discriminate].
  - inversion Hplan as [|? ? _ Hrest]; subst.
    eexists _, _. split; [reflexivity|]. cbn [incoming recv_plan is_open].
    split; [symmetry; apply take_drop|]. split; [rewrite length_take; lia|].
    split; [|split; [exact Hrest|reflexivity]].
    intros H. destruct (incoming t) as [|c s]; [reflexivity|].
    destruct len; [lia|]. cbn in H. discriminate.
  - inversion Hplan as [|? ? Hf _]; subst. congruence.
Qed.

(** The outer loop, from a buffer that holds the beginning of a line:
    however the bytes arrive, the lines handled and the way the loop ends
    are those of [framing] on the buffer followed by what is to come. *)
Lemma read_loop_framing (fuel : nat) :
  forall (buffer : list ascii) (t : Transport) (a : A),
    newline ∉ buffer ->
    (length buffer < bufferSize)%nat ->
    Forall (fun a => a <> Failure) (recv_plan t) ->
    (length (incoming t) < fuel)%nat ->
    exists t' : Transport,
      is_open t' = is_open t /\
      read_loop process fuel buffer t a =
      Some (and_then
              (process_all process
                 (map c_str (framing (buffer ++ incoming t)).1) a)
              (fun a' => Ok ((framing (buffer ++ incoming t)).2, t', a'))).
Proof.
  induction fuel as [|fuel IH]; intros buffer t a Hn Hlen Hplan Hfuel; [lia|].
  cbn [read_loop].
  destruct (recv_spec (bufferSize - length buffer) t ltac:(lia) Hplan)
    as (data & t1 & Hrecv & Hin & Hdata & Hempty & Hplan1 & Hopen).
  rewrite Hrecv.
  destruct (decide (Z.of_nat (length data) = 0)) as [H0|H0].
  { assert (data = []) as -> by (destruct data; [reflexivity|discriminate]).
    rewrite (Hempty eq_refl), app_nil_r, (framing_short _ Hn Hlen).
    exists t1. split; [exact Hopen|reflexivity]. }
  rewrite decide_False by lia.
  assert (Hdata0 : (0 < length data)%nat) by lia.
  pose proof (split_lines_fit (buffer ++ data)) as (Hfit & Htl & Htl').
  pose proof (split_lines_tail (buffer ++ data)) as Htn.
  assert (Hb : (length (buffer ++ data) <= bufferSize)%nat)
    by (rewrite length_app; lia).
  assert (Hshort : Forall (fun l => length l < bufferSize)%nat
                          (split_lines (buffer ++ data)).1).
  { eapply List.Forall_impl; [|exact Hfit]. cbn. intros l Hl. lia. }
  rewrite lines_loop_split by lia.
  rewrite Hin, app_assoc, (framing_app _ _ Hshort).
  cbn [fst snd]. rewrite map_app, process_all_app.
  destruct (process_all process (map c_str (split_lines (buffer ++ data)).1) a)
    as [a1|h]; cbn [and_then].
  2:{ exists t1. split; [exact Hopen|reflexivity]. }
  destruct (decide (length (split_lines (buffer ++ data)).2 = bufferSize)) as [Hfull|Hfull].
  - rewrite framing_long by (assumption || lia).
    exists t1. split; [exact Hopen|reflexivity].
  - assert (Hfuel1 : (length (incoming t1) < fuel)%nat).
    { rewrite Hin, length_app in Hfuel. lia. }
    destruct (IH (split_lines (buffer ++ data)).2 t1 a1 Htn ltac:(lia) Hplan1 Hfuel1)
      as (t' & Hopen' & Hloop).
    exists t'. split; [congruence|exact Hloop].
Qed.

Lemma recv_cases (len : nat) (t : Transport) :
  exists (rc : Z) (data : list ascii) (t' : Transport),
    recv len t = (rc, data, t') /\
    is_open t' = is_open t /\
    (rc = -1 \/
     (rc = Z.of_nat (length data) /\ incoming t = data ++ incoming t' /\
      (length data <= len)%nat)).
Proof.
  unfold recv. destruct (recv_plan t) as [|[more|] plan].
  - eexists _, _, _. split; [reflexivity|]. split; [reflexivity|]. right.
    cbn [incoming]. split; [reflexivity|].
    split; [symmetry; apply take_drop | rewrite length_take; lia].
  - eexists _, _, _. split; [reflexivity|]. split; [reflexivity|]. right.
    cbn [incoming]. split; [reflexivity|].
    split; [symmetry; apply take_drop | rewrite length_take; lia].
  - eexists _, _, _. split; [reflexivity|]. split; [reflexivity|]. left. reflexivity.
Qed.

(** The outer loop ends for every input and every way of arrival, with
    fuel beyond the number of bytes to come. *)
Lemma read_loop_total (fuel : nat) :
  forall (buffer : list ascii) (t : Transport) (a : A),
    (length (incoming t) < fuel)%nat ->
    (length buffer < bufferSize)%nat ->
    exists r : Result (Ending * Transport * A),
      read_loop process fuel buffer t a = Some r /\
      forall (e : Ending) (t' : Transport) (a' : A),
        r = Ok (e, t', a') -> is_open t' = is_open t.
Proof.
  induction fuel as [|fuel IH]; intros buffer t a Hfuel Hlen; [lia|].
  cbn [read_loop].
  destruct (recv_cases (bufferSize - length buffer) t)
    as (rc & data & t1 & Hrecv & Hopen & Hrc).
  rewrite Hrecv.
  destruct (decide (rc = 0)) as [Hz|H0].
  { eexists. split; [reflexivity|]. intros e t' a' H. injection H as <- <- <-.
    exact Hopen. }
  destruct (decide (rc = -1)) as [Hm|H1].
  { eexists. split; [reflexivity|]. intros e t' a' H. injection H as <- <- <-.
    exact Hopen. }
  destruct Hrc as [|(-> & Hin & Hdata)]; [congruence|].
  rewrite lines_loop_split by lia.
  pose proof (split_lines_fit (buffer ++ data)) as (_ & Htl & _).
  rewrite length_app in Htl.
  destruct (process_all process (map c_str (split_lines (buffer ++ data)).1) a)
    as [a1|h]; cbn [and_then].
  2:{ eexists. split; [reflexivity|]. intros e t' a' H. discriminate H. }
  destruct (decide (length (split_lines (buffer ++ data)).2 = bufferSize)) as [Hf|Hfull].
  { eexists. split; [reflexivity|]. intros e t' a' H. injection H as <- <- <-.
    exact Hopen. }
  destruct (IH (split_lines (buffer ++ data)).2 t1 a1) as (r & Hr & Ho); [|lia|].
  { rewrite Hin, length_app in Hfuel. lia. }
  exists r. split; [exact Hr|]. intros e t' a' H. rewrite (Ho e t' a' H). exact Hopen.
Qed.

Lemma read_all_framing (input : list ascii) (plan : list Arrival) (open : bool)
    (a : A) :
  Forall (fun a => a <> Failure) plan ->
  exists t' : Transport,
    is_open t' = open /\
    read_all process (mkTransport input plan open) a =
    Some (and_then (process_all process (map c_str (framing input).1) a)
                   (fun a' => Ok ((framing input).2, t', a'))).
Proof.
  intros Hplan. unfold read_all.
  destruct (read_loop_framing (S (length input)) [] (mkTransport input plan open) a)
    as (t' & Hopen & Hloop); cbn [incoming recv_plan length]; try lia; try assumption.
  - apply not_elem_of_nil.
  - unfold bufferSize. lia.
  - exists t'. split; [exact Hopen|exact Hloop].
Qed.

Lemma verdict_framing (input : list ascii) (plan : list Arrival) (a : A) :
  Forall (fun a => a <> Failure) plan ->
  verdict (read_all process (mkTransport input plan true) a) =
  Some (and_then (process_all process (map c_str (framing input).1) a)
                 (fun a' => Ok ((framing input).2, a'))).
Proof.
  intros Hplan.
  destruct (read_all_framing input plan true a Hplan) as (t' & _ & ->).
  unfold verdict. cbn [mbind option_bind]. rewrite and_then_assoc. reflexivity.
Qed.

End ReaderProofs.

(** [serve] returns for every input and every way of arrival, and when it
    returns the connection is closed. *)
Lemma serve_total (t : Transport) (st : State) :
  exists r : Result (Ending * Transport * State),
    serve t st = Some r /\
    forall (e : Ending) (t' : Transport) (st' : State),
      r = Ok (e, t', st') -> is_open t' = false.
Proof.
  destruct (read_loop_total processCommand (S (length (incoming t))) [] t
                           (print Connection_established st))
    as (r & Hr & _); [lia | unfold bufferSize; cbn; lia |].
  unfold serve, readCommands, read_all. rewrite Hr. cbn [mbind option_bind].
  eexists. split; [reflexivity|].
  intros e t' st' H. destruct r as [[[e0 t0] st0]|h]; cbn [and_then] in H; [|discriminate].
  injection H as <- <- <-. reflexivity.
Qed.

(** Complete lines that fit, then a line too long for the buffer. *)
Lemma serve_too_long (ls : list (list ascii)) (long after : list ascii)
    (plan : list Arrival) (st : State) :
  Forall (fun l => (newline ∉ l) /\ (length l < bufferSize)%nat) ls ->
  newline ∉ long ->
  (bufferSize <= length long)%nat ->
  Forall (fun x => x <> Failure) plan ->
  exists t1 : Transport,
    serve (mkTransport (unlines ls ++ long ++ after) plan true) st =
    Some (and_then (process_all processCommand (map c_str ls)
                                (print Connection_established st))
            (fun st' => Ok (Too_long, close t1,
                            print Connection_closed
                                  (print Command_too_long st')))).
Proof.
  intros Hls Hn Hlong Hplan.
  destruct (read_all_framing processCommand (unlines ls ++ long ++ after)
                             plan true (print Connection_established st) Hplan)
    as (t' & _ & Hr).
  rewrite (framing_unlines ls _ Hls), (framing_long long after Hn Hlong) in Hr.
  cbn [fst snd] in Hr. rewrite app_nil_r in Hr.
  exists t'. unfold serve, readCommands. rewrite Hr. cbn [mbind option_bind].
  destruct (process_all processCommand (map c_str ls)
                        (print Connection_established st)); reflexivity.
Qed.

(** ** sscanf and processCommand *)

Section Scanf.

Lemma skip_space_app (s e : list ascii) :
  skip_space s <> [] -> skip_space (s ++ e) = skip_space s ++ e.
Proof.
  induction s as [|c s IH]; cbn [skip_space app]; intros H; [congruence|].
  destruct (isspace c); [apply IH; exact H | reflexivity].
Qed.

Lemma skip_space_app_nil (s e : list ascii) :
  skip_space s = [] -> skip_space (s ++ e) = skip_space e.
Proof.
  induction s as [|c s IH]; cbn [skip_space app]; intros H; [reflexivity|].
  destruct (isspace c); [apply IH; exact H | discriminate].
Qed.

Lemma scan_digits_count (base : Z) (s : list ascii) :
  forall (acc : Z) (n : nat), (n <= (scan_digits base s acc n).1.2)%nat.
Proof.
  induction s as [|c s IH]; intros acc n; cbn [scan_digits]; [cbn; lia|].
  destruct (digit_value base c) as [d|]; [|cbn; lia].
  specialize (IH (acc * base + d) (S n)). lia.
Qed.

Lemma scan_digits_app (base : Z) (s e : list ascii) :
  forall (acc : Z) (n : nat),
    scan_digits base (s ++ e) acc n =
    match (scan_digits base s acc n).2 with
    | [] => scan_digits base e (scan_digits base s acc n).1.1
                               (scan_digits base s acc n).1.2
    | _ :: _ => ((scan_digits base s acc n).1, (scan_digits base s acc n).2 ++ e)
    end.
Proof.
  induction s as [|c s IH]; intros acc n; cbn [scan_digits app]; [reflexivity|].
  destruct (digit_value base c) as [d|]; [apply IH | reflexivity].
Qed.

Lemma scan_sign_app (s e : list ascii) :
  s <> [] -> scan_sign (s ++ e) = ((scan_sign s).1, (scan_sign s).2 ++ e).
Proof.
  destruct s as [|c s]; [congruence|]. intros _. cbn [app scan_sign].
  destruct (decide (c = "-"%char)); [reflexivity|].
  destruct (decide (c = "+"%char)); reflexivity.
Qed.

Lemma scan_prefix_app (base : Z) (s e : list ascii) :
  (scan_prefix base s).2 <> [] ->
  scan_prefix base (s ++ e) = ((scan_prefix base s).1, (scan_prefix base s).2 ++ e).
Proof.
  destruct s as [|z s]; cbn [scan_prefix app snd]; [congruence|].
  destruct (decide (z = "0"%char)); [|reflexivity].
  destruct s as [|x s]; cbn [app snd]; [congruence|].
  destruct ((base =? 16) && bool_decide (x = "x"%char ∨ x = "X"%char));
    cbn [fst snd]; [|reflexivity].
  destruct s as [|y s]; [congruence|reflexivity].
Qed.

(** A prefix that leaves nothing behind has read a leading zero, unless
    there was nothing to read; and then it reads one whatever follows. *)
Lemma scan_prefix_end (base : Z) (s e : list ascii) :
  (scan_prefix base s).2 = [] -> s <> [] ->
  (scan_prefix base s).1 = 1%nat /\ (scan_prefix base (s ++ e)).1 = 1%nat.
Proof.
  destruct s as [|z s]; cbn [scan_prefix app snd fst]; [congruence|].
  intros H _. destruct (decide (z = "0"%char)); [|discriminate].
  destruct s as [|x s]; cbn [app].
  - split; [reflexivity|]. destruct e as [|y e]; [reflexivity|].
    destruct ((base =? 16) && bool_decide (y = "x"%char ∨ y = "X"%char)); reflexivity.
  - destruct ((base =? 16) && bool_decide (x = "x"%char ∨ x = "X"%char));
      split; reflexivity.
Qed.

(** A conversion that succeeds still succeeds with more text after the
    input, and reads the same when it had stopped before the end. *)
Lemma scan_integer_app (base : Z) (s e : list ascii) (v : Z) (rest : list ascii) :
  scan_integer base s = Converted v rest ->
  exists (v' : Z) (rest' : list ascii),
    scan_integer base (s ++ e) = Converted v' rest' /\
    (rest <> [] -> v' = v /\ rest' = rest ++ e).
Proof.
  unfold scan_integer. destruct s as [|c s]; [discriminate|].
  set (s0 := c :: s). change ((c :: s) ++ e) with (s0 ++ e).
  assert (Hs0 : s0 <> []) by discriminate.
  replace (match s0 ++ e with [] => Input_failure | _ :: _ =>
             let '(negative, s1) := scan_sign (s0 ++ e) in
             let '(lead, s2) := scan_prefix base s1 in
             let '(digits, n, rest0) := scan_digits base s2 0 lead in
             if decide (n = 0%nat) then Matching_failure
             else Converted (strtoul_value negative digits) rest0 end)
    with (let '(negative, s1) := scan_sign (s0 ++ e) in
          let '(lead, s2) := scan_prefix base s1 in
          let '(digits, n, rest0) := scan_digits base s2 0 lead in
          if decide (n = 0%nat) then Matching_failure
          else Converted (strtoul_value negative digits) rest0)
    by reflexivity.
  rewrite (scan_sign_app s0 e Hs0). clearbody s0.
  destruct (scan_sign s0) as [negative s1]. cbn [fst snd].
  destruct (scan_prefix base s1) as [lead s2] eqn:Hp.
  destruct s2 as [|d s2].
  - (* the prefix took everything *)
    cbn [scan_digits]. destruct (decide (lead = 0%nat)) as [|Hlead]; [discriminate|].
    intros H. injection H as <- <-.
    destruct s1 as [|z s1]; [cbn in Hp; congruence|].
    destruct (scan_prefix_end base (z :: s1) e) as [_ He];
      [rewrite Hp; reflexivity|discriminate|].
    destruct (scan_prefix base ((z :: s1) ++ e)) as [lead' s2']. cbn [fst] in He.
    subst lead'.
    pose proof (scan_digits_count base s2' 0 1) as Hc.
    destruct (scan_digits base s2' 0 1) as [[digits n] rest0]. cbn [fst snd] in Hc.
    rewrite decide_False by lia.
    eexists _, _. split; [reflexivity|]. congruence.
  - rewrite (scan_prefix_app base s1 e) by (rewrite Hp; discriminate).
    rewrite Hp. cbn [fst snd]. rewrite scan_digits_app.
    pose proof (scan_digits_count base (d :: s2) 0 lead) as Hc.
    destruct (scan_digits base (d :: s2) 0 lead) as [[digits n] rest0].
    cbn [fst snd] in *.
    destruct (decide (n = 0%nat)) as [|Hn]; [discriminate|].
    intros H. injection H as <- <-.
    destruct rest0 as [|r rest0].
    + pose proof (scan_digits_count base e digits n) as Hc'.
      destruct (scan_digits base e digits n) as [[digits' n'] rest']. cbn [fst snd] in Hc'.
      rewrite decide_False by lia.
      eexists _, _. split; [reflexivity|]. congruence.
    + rewrite decide_False by exact Hn.
      eexists _, _. split; [reflexivity|]. intros _. split; reflexivity.
Qed.

Lemma items_app (a : list Z) (v : Z) : items (a ++ [v]) = items a + 1.
Proof. unfold items. rewrite length_app. cbn [length]. lia. Qed.

Lemma convs_nonneg (format : list Directive) : 0 <= convs format.
Proof.
  induction format as [|[c| |k] f IH]; cbn [convs]; lia.
Qed.

Lemma on_input_failure_cases (a : list Z) :
  (a = [] /\ on_input_failure a = EOF) \/
  (a <> [] /\ on_input_failure a = items a).
Proof.
  unfold on_input_failure. destruct (decide (a = [])); [left|right]; split; auto.
Qed.

(** The return code depends on the values assigned so far only through
    their number. *)
Lemma sscanf_rc_length (format : list Directive) :
  forall (s : list ascii) (a a' : list Z),
    length a = length a' ->
    (sscanf s format a).1 = (sscanf s format a').1.
Proof.
  induction format as [|[c| |k] f IH]; intros s a a' Hl; cbn [sscanf].
  - cbn [fst]. unfold items. rewrite Hl. reflexivity.
  - assert (Hf : on_input_failure a = on_input_failure a').
    { unfold on_input_failure, items.
      destruct a, a'; cbn in Hl; try discriminate; [reflexivity|].
      rewrite !decide_False by discriminate. cbn [length]. lia. }
    destruct s as [|c' s]; [exact Hf|].
    destruct (decide (c' = c)); [apply IH; exact Hl|].
    cbn [fst]. unfold items. rewrite Hl. reflexivity.
  - apply IH. exact Hl.
  - assert (Hf : on_input_failure a = on_input_failure a').
    { unfold on_input_failure, items.
      destruct a, a'; cbn in Hl; try discriminate; [reflexivity|].
      rewrite !decide_False by discriminate. cbn [length]. lia. }
    destruct (scan_integer (base_of k) (skip_space s)) as [v rest| |].
    + apply IH. rewrite !length_app. cbn [length]. lia.
    + exact Hf.
    + cbn [fst]. unfold items. rewrite Hl. reflexivity.
Qed.

(** The return code counts the values assigned, or is [EOF]. *)
Lemma sscanf_rc_items (format : list Directive) :
  forall (s : list ascii) (a : list Z),
    (sscanf s format a).1 = items (sscanf s format a).2 \/
    (sscanf s format a).1 = EOF.
Proof.
  induction format as [|[c| |k] f IH]; intros s a; cbn [sscanf].
  - left. reflexivity.
  - destruct s as [|c' s].
    + cbn [fst snd]. destruct (on_input_failure_cases a) as [[_ ->]|[_ ->]]; auto.
    + destruct (decide (c' = c)); [apply IH|left; reflexivity].
  - apply IH.
  - destruct (scan_integer (base_of k) (skip_space s)) as [v rest| |].
    + apply IH.
    + cbn [fst snd]. destruct (on_input_failure_cases a) as [[_ ->]|[_ ->]]; auto.
    + left. reflexivity.
Qed.

(** A format without conversions left does not change the count. *)
Lemma sscanf_no_convs (format : list Directive) :
  forall (s : list ascii) (a : list Z),
    convs format = 0 -> a <> [] -> (sscanf s format a).1 = items a.
Proof.
  induction format as [|[c| |k] f IH]; intros s a Hc Ha; cbn [sscanf convs] in *.
  - reflexivity.
  - destruct s as [|c' s].
    + cbn [fst]. destruct (on_input_failure_cases a) as [[? _]|[_ ->]]; [congruence|reflexivity].
    + destruct (decide (c' = c)); [apply IH; assumption|reflexivity].
  - apply IH; assumption.
  - pose proof (convs_nonneg f). lia.
Qed.

(** A scan that converted every field still does so with more text
    after its input. *)
Lemma sscanf_all_converted_extend (format : list Directive) :
  forall (s e : list ascii) (a : list Z),
    (sscanf s format a).1 = items a + convs format ->
    a <> [] \/ 0 < convs format ->
    (sscanf (s ++ e) format a).1 = items a + convs format.
Proof.
  induction format as [|[c| |k] f IH]; intros s e a Hrc Hne; cbn [sscanf convs] in *.
  - exact Hrc.
  - pose proof (convs_nonneg f) as Hf.
    assert (Hitems : 0 <= items a) by (unfold items; lia).
    destruct s as [|c' s]; cbn [app].
    + cbn [fst] in Hrc.
      destruct (on_input_failure_cases a) as [[Ha He]|[Ha He]];
        rewrite He in Hrc; [subst a; unfold EOF in Hrc; cbn in Hrc; lia|].
      assert (Hc0 : convs f = 0) by lia. rewrite Hc0, Z.add_0_r.
      apply (sscanf_no_convs (Lit c :: f)); assumption.
    + destruct (decide (c' = c)); [apply IH; assumption|exact Hrc].
  - destruct (skip_space s) as [|c' s'] eqn:Hs.
    + rewrite (skip_space_app_nil s e Hs).
      apply (IH [] (skip_space e) a); assumption.
    + rewrite (skip_space_app s e) by (rewrite Hs; discriminate).
      rewrite Hs. apply IH; assumption.
  - pose proof (convs_nonneg f) as Hf.
    assert (Hitems : 0 <= items a) by (unfold items; lia).
    destruct (skip_space s) as [|c' s'] eqn:Hs.
    { cbn [scan_integer fst] in Hrc.
      destruct (on_input_failure_cases a) as [[Ha He]|[Ha He]]; rewrite He in Hrc;
        unfold EOF in *; lia. }
    rewrite (skip_space_app s e) by (rewrite Hs; discriminate). rewrite Hs.
    destruct (scan_integer (base_of k) (c' :: s')) as [v rest| |] eqn:Hscan.
    2:{ cbn [fst] in Hrc.
        destruct (on_input_failure_cases a) as [[Ha He]|[Ha He]]; rewrite He in Hrc;
          unfold EOF in *; lia. }
    2:{ cbn [fst] in Hrc. lia. }
    destruct (scan_integer_app _ _ e _ _ Hscan) as (v' & rest' & Hscan' & Hsame).
    rewrite Hscan'.
    assert (Ha1 : forall x, a ++ [x] <> []) by (intros x; destruct a; discriminate).
    destruct rest as [|r rest].
    + rewrite (sscanf_rc_length f rest' (a ++ [stored k v']) (a ++ [stored k v]))
        by (rewrite !length_app; reflexivity).
      pose proof (IH [] rest' (a ++ [stored k v])) as IH'.
      cbn [app] in IH'. rewrite items_app in IH'.
      rewrite IH'; [lia| |left; apply Ha1].
      rewrite Hrc. lia.
    + destruct Hsame as [-> ->]; [discriminate|].
      pose proof (IH (r :: rest) e (a ++ [stored k v])) as IH'.
      rewrite items_app in IH'. rewrite IH'; [lia| |left; apply Ha1].
      rewrite Hrc. lia.
Qed.

Lemma isspace_not_digit (c : ascii) :
  isspace c = true ->
  isdigit c = false /\ isxdigit c = false /\ c <> "x"%char /\ c <> "X"%char.
Proof.
  destruct c as [b0 b1 b2 b3 b4 b5 b6 b7].
  destruct b0, b1, b2, b3, b4, b5, b6, b7; vm_compute; intros H;
    try discriminate H; repeat split; discriminate.
Qed.

Lemma scan_digits_stop (base : Z) (c : ascii) (e : list ascii) (acc : Z) (n : nat) :
  isspace c = true -> scan_digits base (c :: e) acc n = (acc, n, c :: e).
Proof.
  intros H. destruct (isspace_not_digit c H) as (Hd & Hx & _).
  cbn [scan_digits]. unfold digit_value. rewrite Hd, Hx, andb_false_r. reflexivity.
Qed.

(** With white space after the input a conversion reads what it read
    without it. *)
Lemma scan_integer_app_space (base : Z) (s : list ascii) (c : ascii)
    (e : list ascii) (v : Z) (rest : list ascii) :
  isspace c = true ->
  scan_integer base s = Converted v rest ->
  scan_integer base (s ++ c :: e) = Converted v (rest ++ c :: e).
Proof.
  intros Hc. destruct (isspace_not_digit c Hc) as (_ & _ & Hx & HX).
  unfold scan_integer. destruct s as [|c0 s]; [discriminate|].
  set (s0 := c0 :: s). change ((c0 :: s) ++ c :: e) with (s0 ++ c :: e).
  assert (Hs0 : s0 <> []) by discriminate.
  replace (match s0 ++ c :: e with [] => Input_failure | _ :: _ =>
             let '(negative, s1) := scan_sign (s0 ++ c :: e) in
             let '(lead, s2) := scan_prefix base s1 in
             let '(digits, n, rest0) := scan_digits base s2 0 lead in
             if decide (n = 0%nat) then Matching_failure
             else Converted (strtoul_value negative digits) rest0 end)
    with (let '(negative, s1) := scan_sign (s0 ++ c :: e) in
          let '(lead, s2) := scan_prefix base s1 in
          let '(digits, n, rest0) := scan_digits base s2 0 lead in
          if decide (n = 0%nat) then Matching_failure
          else Converted (strtoul_value negative digits) rest0)
    by (destruct s0; [congruence|reflexivity]).
  rewrite (scan_sign_app s0 (c :: e) Hs0). clearbody s0.
  destruct (scan_sign s0) as [negative s1]. cbn [fst snd].
  destruct (scan_prefix base s1) as [lead s2] eqn:Hp.
  destruct s2 as [|d s2].
  - cbn [scan_digits]. destruct (decide (lead = 0%nat)) as [|Hlead]; [discriminate|].
    intros H. injection H as <- <-.
    assert (Hp' : scan_prefix base (s1 ++ c :: e) = (lead, c :: e)).
    { revert Hp. destruct s1 as [|z s1]; cbn [scan_prefix app];
        [intros H; injection H as <-; congruence|].
      destruct (decide (z = "0"%char)); [|discriminate].
      destruct s1 as [|x s1]; cbn [app].
      - intros H. injection H as <-.
        rewrite (bool_decide_eq_false_2 (c = "x"%char ∨ c = "X"%char)) by tauto.
        rewrite andb_false_r. reflexivity.
      - destruct ((base =? 16) && bool_decide (x = "x"%char ∨ x = "X"%char));
          intros H; injection H as <- Hs; [subst s1; reflexivity|discriminate]. }
    rewrite Hp', (scan_digits_stop base c e 0 lead Hc).
    rewrite decide_False by exact Hlead. reflexivity.
  - rewrite (scan_prefix_app base s1 (c :: e)) by (rewrite Hp; discriminate).
    rewrite Hp. cbn [fst snd]. rewrite scan_digits_app.
    destruct (scan_digits base (d :: s2) 0 lead) as [[digits n] rest0].
    cbn [fst snd].
    destruct (decide (n = 0%nat)) as [|Hn]; [discriminate|].
    intros H. injection H as <- <-.
    destruct rest0 as [|r rest0].
    + rewrite (scan_digits_stop base c e digits n Hc).
      rewrite decide_False by exact Hn. reflexivity.
    + rewrite decide_False by exact Hn. reflexivity.
Qed.

Lemma sscanf_no_convs_values (format : list Directive) :
  forall (s : list ascii) (a : list Z),
    convs format = 0 -> a <> [] -> sscanf s format a = (items a, a).
Proof.
  induction format as [|[c| |k] f IH]; intros s a Hc Ha; cbn [sscanf convs] in *.
  - reflexivity.
  - destruct s as [|c' s].
    + destruct (on_input_failure_cases a) as [[? _]|[_ ->]]; [congruence|reflexivity].
    + destruct (decide (c' = c)); [apply IH; assumption|reflexivity].
  - apply IH; assumption.
  - pose proof (convs_nonneg f). lia.
Qed.

(** At the end of the input nothing more can be converted. *)
Lemma sscanf_nil_all_converted (format : list Directive) :
  forall a : list Z,
    (sscanf [] format a).1 = items a + convs format -> convs format = 0.
Proof.
  induction format as [|[c| |k] f IH]; intros a Hrc; cbn [sscanf convs skip_space] in *.
  - reflexivity.
  - pose proof (convs_nonneg f) as Hf. cbn [fst] in Hrc.
    assert (Hitems : 0 <= items a) by (unfold items; lia).
    destruct (on_input_failure_cases a) as [[Ha He]|[Ha He]]; rewrite He in Hrc;
      unfold EOF in *; lia.
  - apply (IH a Hrc).
  - pose proof (convs_nonneg f) as Hf. cbn [scan_integer fst] in Hrc.
    assert (Hitems : 0 <= items a) by (unfold items; lia).
    destruct (on_input_failure_cases a) as [[Ha He]|[Ha He]]; rewrite He in Hrc;
      unfold EOF in *; lia.
Qed.

(** A scan that converted every field assigns the same values when
    white space and anything else follow its input. *)
Lemma sscanf_all_converted_space (format : list Directive) (c : ascii)
    (e : list ascii) :
  isspace c = true ->
  forall (s : list ascii) (a : list Z),
    (sscanf s format a).1 = items a + convs format ->
    a <> [] \/ 0 < convs format ->
    sscanf (s ++ c :: e) format a = sscanf s format a.
Proof.
  intros Hc.
  induction format as [|[c0| |k] f IH]; intros s a Hrc Hne; cbn [sscanf convs] in *.
  - reflexivity.
  - pose proof (convs_nonneg f) as Hf.
    assert (Hitems : 0 <= items a) by (unfold items; lia).
    destruct s as [|c' s]; cbn [app].
    + cbn [fst] in Hrc.
      destruct (on_input_failure_cases a) as [[Ha He]|[Ha He]];
        rewrite He in Hrc; [subst a; unfold EOF in Hrc; cbn in Hrc; lia|].
      assert (Hc0 : convs f = 0) by lia. rewrite He.
      apply (sscanf_no_convs_values (Lit c0 :: f) (c :: e)); assumption.
    + destruct (decide (c' = c0)); [apply IH; assumption|reflexivity].
  - destruct (skip_space s) as [|c' s'] eqn:Hs.
    + rewrite (skip_space_app_nil s (c :: e) Hs).
      pose proof (sscanf_nil_all_converted f a Hrc) as Hc0.
      assert (Ha : a <> []) by (destruct Hne; [assumption|lia]).
      rewrite !(sscanf_no_convs_values f) by assumption. reflexivity.
    + rewrite (skip_space_app s (c :: e)) by (rewrite Hs; discriminate).
      rewrite Hs. apply IH; assumption.
  - pose proof (convs_nonneg f) as Hf.
    assert (Hitems : 0 <= items a) by (unfold items; lia).
    destruct (skip_space s) as [|c' s'] eqn:Hs.
    { cbn [scan_integer fst] in Hrc.
      destruct (on_input_failure_cases a) as [[Ha He]|[Ha He]]; rewrite He in Hrc;
        unfold EOF in *; lia. }
    rewrite (skip_space_app s (c :: e)) by (rewrite Hs; discriminate). rewrite Hs.
    destruct (scan_integer (base_of k) (c' :: s')) as [v rest| |] eqn:Hscan.
    2:{ cbn [fst] in Hrc.
        destruct (on_input_failure_cases a) as [[Ha He]|[Ha He]]; rewrite He in Hrc;
          unfold EOF in *; lia. }
    2:{ cbn [fst] in Hrc. lia. }
    rewrite (scan_integer_app_space _ _ c e _ _ Hc Hscan).
    apply IH; [rewrite items_app; lia|].
    left. destruct a; discriminate.
Qed.

Lemma sscanf_two (s : list ascii) (format : list Directive) :
  (sscanf s format []).1 = 2 ->
  exists x y : Z, sscanf s format [] = (2, [x; y]).
Proof.
  intros H. destruct (sscanf_rc_items format s []) as [Hi|Hi].
  - rewrite H in Hi. destruct (sscanf s format []) as [rc vals]. cbn [fst snd] in *.
    subst rc. unfold items in Hi.
    destruct vals as [|x [|y [|z vals]]]; cbn [length] in Hi; try lia.
    exists x, y. reflexivity.
  - rewrite H in Hi. discriminate.
Qed.

Lemma sscanf_match_extend (p e : list ascii) :
  (sscanf p format_match []).1 = 2 ->
  exists h d : Z, sscanf (p ++ e) format_match [] = (2, [h; d]).
Proof.
  intros H. apply sscanf_two.
  apply (sscanf_all_converted_extend format_match p e []); [exact H|].
  right. reflexivity.
Qed.

Lemma sscanf_add_extend (p e : list ascii) :
  (sscanf p format_add []).1 = 2 ->
  exists i h : Z, sscanf (p ++ e) format_add [] = (2, [i; h]).
Proof.
  intros H. apply sscanf_two.
  apply (sscanf_all_converted_extend format_add p e []); [exact H|].
  right. reflexivity.
Qed.

(** A line the second format converts starts with an [a], which the
    first format refuses. *)
Lemma sscanf_add_not_match (p e : list ascii) :
  (sscanf p format_add []).1 = 2 ->
  (sscanf (p ++ e) format_match []).1 <> 2.
Proof.
  destruct p as [|c p]; [cbn; discriminate|].
  unfold format_add, format_match. cbn [chars list_ascii_of_string map app sscanf].
  destruct (decide (c = "a"%char)) as [->|]; [|cbn; discriminate].
  intros _. rewrite decide_False by discriminate. cbn. discriminate.
Qed.

Lemma processCommand_match (command : list ascii) (h d : Z) (st : State) :
  sscanf command format_match [] = (2, [h; d]) ->
  processCommand command st =
  and_then (search h d (print (Will_search h d) st)) send_results.
Proof. intros H. unfold processCommand. rewrite H. reflexivity. Qed.

Lemma processCommand_add (command : list ascii) (i h : Z) (st : State) :
  (sscanf command format_match []).1 <> 2 ->
  sscanf command format_add [] = (2, [i; h]) ->
  processCommand command st = add i h (print (Will_add i h) st).
Proof.
  intros Hm Ha. unfold processCommand.
  destruct (sscanf command format_match []) as [rc args]. cbn [fst] in Hm.
  rewrite decide_False by exact Hm. rewrite Ha. reflexivity.
Qed.

Lemma processCommand_invalid (command : list ascii) (st : State) :
  (sscanf command format_match []).1 <> 2 ->
  (sscanf command format_add []).1 <> 2 ->
  processCommand command st = Ok (print Invalid_command st).
Proof.
  intros Hm Ha. unfold processCommand.
  destruct (sscanf command format_match []) as [rc args]. cbn [fst] in Hm.
  rewrite decide_False by exact Hm.
  destruct (sscanf command format_add []) as [rc' args']. cbn [fst] in Ha.
  rewrite decide_False by exact Ha. reflexivity.
Qed.

Lemma processCommand_space (p : list ascii) (c : ascii) (e : list ascii)
    (st : State) :
  isspace c = true ->
  (sscanf p format_match []).1 = 2 \/ (sscanf p format_add []).1 = 2 ->
  processCommand (p ++ c :: e) st = processCommand p st.
Proof.
  intros Hc [Hm|Ha]; unfold processCommand.
  - rewrite (sscanf_all_converted_space format_match c e Hc p [] Hm)
      by (right; reflexivity).
    destruct (sscanf p format_match []) as [rc args]. cbn [fst] in Hm. subst rc.
    rewrite !decide_True by reflexivity. reflexivity.
  - pose proof (sscanf_add_not_match p (c :: e) Ha) as Hm'.
    pose proof (sscanf_add_not_match p [] Ha) as Hm. rewrite app_nil_r in Hm.
    destruct (sscanf (p ++ c :: e) format_match []) as [rc' args'].
    destruct (sscanf p format_match []) as [rc args]. cbn [fst] in Hm, Hm'.
    rewrite !decide_False by assumption.
    rewrite (sscanf_all_converted_space format_add c e Hc p [] Ha)
      by (right; reflexivity).
    reflexivity.
Qed.


End Scanf.



(** C6. For 64-bit [a] and [b] the distance a worker computes is the
    number of bit positions at which [a] and [b] differ; it is symmetric
    and zero between a value and itself. *)
Theorem distance_is_hamming (a b : Z) :
  Int.in_u64 a -> Int.in_u64 b ->
  distance a b = differing_bits a b /\
  distance a b = distance b a /\
  distance a a = 0.
Proof.
  intros Ha Hb. split; [apply distance_differing_bits; assumption|].
  split; [apply distance_sym | apply distance_self].
Qed.

Lemma distance_is_hamming_witness :
  distance 15 0 = differing_bits 15 0 /\
  distance 15 0 = distance 0 15 /\
  distance 15 15 = 0.
Proof.
  apply (distance_is_hamming 15 0); unfold Int.in_u64; lia.
Defined.

(** C2. On a state with at least one list, [add] follows the policy of the
    spec: it goes through all pairs [(i, i+1)], puts the entry into every
    list [i+1] that is at that moment shorter than list [i], and puts it
    into list [0] when no pair qualified (which is the case with one list);
    with lists of sizes 1, 0, 0 the entry goes into two lists. *)
Theorem add_follows_policy :
  (forall (hash dbId : Z) (st : State),
     well_formed st ->
     add hash dbId st =
     Ok (set_nodeLists (policy (Node_ctor hash dbId) (GBLnodeLists st)) st)) /\
  (forall (hash dbId : Z) (l : list Node),
     policy (Node_ctor hash dbId) [l] = [Node_ctor hash dbId :: l]) /\
  policy (Node_ctor 3 4) [[Node_ctor 1 2]; []; []] =
    [[Node_ctor 1 2]; [Node_ctor 3 4]; [Node_ctor 3 4]].
Proof.
  split; [|split; reflexivity].
  intros hash dbId st Hwf.
  destruct (GBLnodeLists st) as [|first rest] eqn:Hl.
  { destruct Hwf as [Hlo _]. unfold GBLnumCores in Hlo. rewrite Hl in Hlo.
    cbn in Hlo. lia. }
  rewrite (add_pass hash dbId st first rest Hwf Hl).
  unfold policy. cbn [length].
  replace (S (length rest) - 1)%nat with (length rest) by lia.
  pose proof (policy_pass hash dbId rest [] first false) as Hfold.
  cbn [length app orb] in Hfold. rewrite Hfold.
  destruct (pass (Node_ctor hash dbId) (length first) rest).2 eqn:Hq; [reflexivity|].
  rewrite (pass_unqualified _ _ _ _ Hq). reflexivity.
Qed.

Lemma add_follows_policy_witness :
  well_formed (store [[]; []]) /\
  add 100 15 (store [[]; []]) =
  Ok (set_nodeLists (policy (Node_ctor 100 15) [[]; []]) (store [[]; []])).
Proof.
  assert (Hwf : well_formed (store [[]; []])) by (unfold well_formed, GBLnumCores, Int.uint_bits; simpl; lia).
  split; [exact Hwf|].
  exact (proj1 add_follows_policy 100 15 (store [[]; []]) Hwf).
Defined.

(** C3. With three lists of sizes 1, 0 and 0 (the store after one [add]
    into an empty store of three lists), one call of [add] puts the entry
    into the second and into the third list: two entries for one call. *)
Theorem add_inserts_into_two_lists :
  add 1 2 (store [[]; []; []]) = Ok (store [[Node_ctor 1 2]; []; []]) /\
  add 3 4 (store [[Node_ctor 1 2]; []; []]) =
    Ok (store [[Node_ctor 1 2]; [Node_ctor 3 4]; [Node_ctor 3 4]]) /\
  total [[Node_ctor 1 2]; [Node_ctor 3 4]; [Node_ctor 3 4]] =
    (total [[Node_ctor 1 2]; []; []] + 2)%nat.
Proof. repeat split. Qed.

(** C9. On a state with [N >= 1] lists one call of [add] keeps the number
    of lists, leaves every list as it was or with the new entry in front,
    adds at least one and at most [max 1 (N-1)] entries in all, and
    compares each list with its predecessor as the pass has left that
    predecessor: list [1] with list [0] as it was, list [j+2] with list
    [j+1] as it is after the call. With sizes 2, 1, 1 the third list
    receives the entry only because the second has just received it. *)
Theorem add_growth :
  (forall (hash dbId : Z) (st : State),
     well_formed st ->
     exists lists' : list (list Node),
       let e := Node_ctor hash dbId in
       let lists := GBLnodeLists st in
       add hash dbId st = Ok (set_nodeLists lists' st) /\
       length lists' = length lists /\
       (forall (j : nat) (l : list Node),
          lists !! j = Some l ->
          lists' !! j = Some l \/ lists' !! j = Some (e :: l)) /\
       (total lists + 1 <= total lists'
          <= total lists + Nat.max 1 (length lists - 1))%nat /\
       (forall first next : list Node,
          lists !! 0%nat = Some first -> lists !! 1%nat = Some next ->
          lists' !! 1%nat =
          Some (if decide (length next < length first)%nat then e :: next else next)) /\
       (forall (j : nat) (before next : list Node),
          lists' !! S j = Some before -> lists !! S (S j) = Some next ->
          lists' !! S (S j) =
          Some (if decide (length next < length before)%nat then e :: next else next))) /\
  add 7 8 (store [[Node_ctor 1 1; Node_ctor 2 2]; [Node_ctor 3 3]; [Node_ctor 4 4]]) =
    Ok (store [[Node_ctor 1 1; Node_ctor 2 2];
               [Node_ctor 7 8; Node_ctor 3 3];
               [Node_ctor 7 8; Node_ctor 4 4]]).
Proof.
  split; [|reflexivity].
  intros hash dbId st Hwf.
  destruct (GBLnodeLists st) as [|first rest] eqn:Hl.
  { destruct Hwf as [Hlo _]. unfold GBLnumCores in Hlo. rewrite Hl in Hlo.
    cbn in Hlo. lia. }
  set (e := Node_ctor hash dbId).
  pose proof (add_pass hash dbId st first rest Hwf Hl) as Hadd. fold e in Hadd.
  pose proof (pass_length hash dbId rest (length first)) as Hlen. fold e in Hlen.
  pose proof (pass_total hash dbId rest (length first)) as [Htot Hq]. fold e in Htot, Hq.
  pose proof (pass_unqualified hash dbId rest (length first)) as Hun. fold e in Hun.
  pose proof (pass_lookup hash dbId rest (length first)) as Hlook. fold e in Hlook.
  set (q := (pass e (length first) rest).2) in *.
  set (rest' := (pass e (length first) rest).1) in *.
  exists (if q then first :: rest' else (e :: first) :: rest).
  cbn zeta.
  assert (Htail : forall k, (if q then first :: rest' else (e :: first) :: rest) !! S k
                            = rest' !! k).
  { intros k. destruct q; [reflexivity|]. rewrite Hun by reflexivity. reflexivity. }
  split; [exact Hadd|]. split.
  { destruct q; cbn [length]; [rewrite Hlen|]; reflexivity. }
  split.
  { intros [|j] l Hj.
    - cbn in Hj. injection Hj as ->. destruct q; [left|right]; reflexivity.
    - cbn in Hj. rewrite Htail, (Hlook j l Hj).
      match goal with |- context [decide ?P] => destruct (decide P) end;
        [right|left]; reflexivity. }
  split.
  { unfold total in *. destruct q.
    - specialize (Hq eq_refl). cbn [concat length]. rewrite !length_app. lia.
    - cbn [concat length app]. rewrite !length_app. cbn [length]. lia. }
  split.
  { intros first0 next H0 H1. cbn in H0, H1. injection H0 as <-.
    rewrite Htail. exact (Hlook 0%nat next H1). }
  intros j before next Hb Hn. cbn in Hn. rewrite Htail in Hb |- *.
  rewrite (Hlook (S j) next Hn). rewrite Hb. reflexivity.
Qed.

Lemma add_growth_witness :
  well_formed (store [[]; []]) /\
  exists lists' : list (list Node),
    add 100 15 (store [[]; []]) = Ok (set_nodeLists lists' (store [[]; []])) /\
    length lists' = 2%nat.
Proof.
  assert (Hwf : well_formed (store [[]; []])) by (unfold well_formed, GBLnumCores, Int.uint_bits; simpl; lia).
  split; [exact Hwf|].
  destruct (proj1 add_growth 100 15 (store [[]; []]) Hwf) as (lists' & Ha & Hl & _).
  exists lists'. split; [exact Ha | exact Hl].
Defined.

(** C4. Whatever the handler and the input, the lines handled and the way
    the loop ends do not depend on how the input is cut into chunks: they
    are the same as when every [recv] returns all that fits. For an input
    made of complete lines of at most 1024 bytes with their newline, the
    commands handled are these lines, each once and in order, and the
    loop ends when the peer closes. In every round the complete lines in
    the buffer are handled before the next [recv]. *)
Theorem readCommands_framing :
  (forall (A : Type) (process : list ascii -> A -> Result A)
          (input : list ascii) (plan : list Arrival) (a : A),
     Forall (fun x => x <> Failure) plan ->
     verdict (read_all process (mkTransport input plan true) a) =
     verdict (read_all process (mkTransport input [] true) a)) /\
  (forall (ls : list (list ascii)) (plan : list Arrival) (seen : list (list ascii)),
     Forall (fun l => (newline ∉ l) /\ (length l < bufferSize)%nat) ls ->
     Forall (fun x => x <> Failure) plan ->
     verdict (read_all record (mkTransport (unlines ls) plan true) seen) =
     Some (Ok (Peer_closed, seen ++ map c_str ls))) /\
  (forall (ls : list (list ascii)) (plan : list Arrival) (st : State),
     Forall (fun l => (newline ∉ l) /\ (length l < bufferSize)%nat) ls ->
     Forall (fun x => x <> Failure) plan ->
     verdict (readCommands (mkTransport (unlines ls) plan true) st) =
     Some (and_then (process_all processCommand (map c_str ls) st)
                    (fun st' => Ok (Peer_closed, st')))) /\
  (forall (A : Type) (process : list ascii -> A -> Result A) (fuel : nat)
          (buffer data : list ascii) (t t1 : Transport) (a : A),
     recv (bufferSize - length buffer) t = (Z.of_nat (length data), data, t1) ->
     data <> [] ->
     read_loop process (S fuel) buffer t a =
     match process_all process (map c_str (split_lines (buffer ++ data)).1) a with
     | Halted h => Some (Halted h)
     | Ok a' =>
         if decide (length (split_lines (buffer ++ data)).2 = bufferSize)
         then Some (Ok (Too_long, t1, a'))
         else read_loop process fuel (split_lines (buffer ++ data)).2 t1 a'
     end).
Proof.
  split; [|split; [|split]].
  - intros A process input plan a Hplan.
    rewrite (verdict_framing process input plan a Hplan).
    rewrite (verdict_framing process input [] a) by constructor. reflexivity.
  - intros ls plan seen Hls Hplan.
    rewrite (verdict_framing record _ plan seen Hplan).
    pose proof (framing_unlines ls [] Hls) as Hf.
    rewrite app_nil_r in Hf. rewrite Hf. cbn [fst snd].
    rewrite app_nil_r. clear Hf Hls. f_equal.
    generalize (map c_str ls). intros cs. revert seen.
    induction cs as [|c cs IH]; intros seen; cbn [process_all and_then record].
    + rewrite app_nil_r. reflexivity.
    + rewrite IH, <- app_assoc. reflexivity.
  - intros ls plan st Hls Hplan. unfold readCommands.
    destruct (read_all_framing processCommand (unlines ls) plan true st Hplan)
      as (t' & _ & ->).
    pose proof (framing_unlines ls [] Hls) as Hf.
    rewrite app_nil_r in Hf. rewrite Hf. cbn [fst snd].
    rewrite app_nil_r. unfold verdict. cbn [mbind option_bind].
    destruct (process_all processCommand (map c_str ls) st); reflexivity.
  - intros A process. apply read_loop_round.
Qed.

Lemma readCommands_framing_witness :
  verdict (read_all record
             (mkTransport (unlines [chars "add 1 ff"; chars "match ff 3"])
                          [Bytes 2; Bytes 0; Bytes 40] true) []) =
  Some (Ok (Peer_closed, [] ++ map c_str [chars "add 1 ff"; chars "match ff 3"])).
Proof.
  apply (proj1 (proj2 readCommands_framing)).
  - repeat (apply List.Forall_cons; [split|]); try apply List.Forall_nil;
      try (unfold bufferSize; simpl; lia);
      apply (bool_decide_unpack _); vm_compute; reflexivity.
  - repeat (apply List.Forall_cons; [discriminate|]). apply List.Forall_nil.
Defined.

(** C7. When the input holds, after complete lines that fit, 1024 bytes
    or more without a newline, the loop handles the lines before them and
    stops with the complaint that the command is too long, and the
    connection is closed; nothing of the oversized line reaches the
    handler. A line of 1023 bytes and its newline is handled; a line of
    1024 bytes before its newline is not. For every input and every way
    of arrival the loop ends and the connection is closed. *)
Theorem oversized_line_closes :
  (forall (ls : list (list ascii)) (long after : list ascii)
          (plan : list Arrival) (st : State),
     Forall (fun l => (newline ∉ l) /\ (length l < bufferSize)%nat) ls ->
     newline ∉ long ->
     (bufferSize <= length long)%nat ->
     Forall (fun x => x <> Failure) plan ->
     exists t1 : Transport,
       serve (mkTransport (unlines ls ++ long ++ after) plan true) st =
       Some (and_then (process_all processCommand (map c_str ls)
                                   (print Connection_established st))
               (fun st' => Ok (Too_long, close t1,
                               print Connection_closed
                                     (print Command_too_long st'))))) /\
  (forall (after : list ascii) (plan : list Arrival) (st : State),
     Forall (fun x => x <> Failure) plan ->
     exists t1 : Transport,
       serve (mkTransport (repeat "x"%char 2000 ++ after) plan true) st =
       Some (Ok (Too_long, close t1,
                 print Connection_closed
                   (print Command_too_long (print Connection_established st))))) /\
  (forall l : list ascii,
     newline ∉ l -> length l = 1023%nat ->
     framing (l ++ [newline]) = ([l], Peer_closed)) /\
  (forall l after : list ascii,
     newline ∉ l -> length l = 1024%nat ->
     framing (l ++ newline :: after) = ([], Too_long)) /\
  (forall (t : Transport) (st : State),
     exists r : Result (Ending * Transport * State),
       serve t st = Some r /\
       forall (e : Ending) (t' : Transport) (st' : State),
         r = Ok (e, t', st') -> is_open t' = false).
Proof.
  split; [exact serve_too_long|]. split; [|split; [|split; [|exact serve_total]]].
  - intros after plan st Hplan.
    destruct (serve_too_long [] (repeat "x"%char 2000) after plan st) as (t1 & Hs).
    + constructor.
    + intros Hin. apply list_elem_of_In, repeat_spec in Hin. discriminate.
    + rewrite repeat_length. unfold bufferSize. lia.
    + exact Hplan.
    + exists t1. exact Hs.
  - intros l Hn Hlen.
    pose proof (framing_unlines [l] []) as Hf. unfold unlines in Hf.
    cbn [map concat] in Hf. rewrite !app_nil_r in Hf. apply Hf.
    apply List.Forall_cons; [|apply List.Forall_nil].
    split; [exact Hn|]. unfold bufferSize. lia.
  - intros l after Hn Hlen. unfold framing.
    rewrite (split_lines_line _ _ Hn). cbn [fst snd within_budget].
    rewrite decide_False; [reflexivity|]. unfold bufferSize. lia.
Qed.

Lemma oversized_line_closes_witness :
  exists t1 : Transport,
    serve (mkTransport (unlines [chars "add 1 ff"] ++ repeat "y"%char 1024 ++ [])
                       [Bytes 5] true) (store [[]; []]) =
    Some (and_then (process_all processCommand (map c_str [chars "add 1 ff"])
                                (print Connection_established (store [[]; []])))
            (fun st' => Ok (Too_long, close t1,
                            print Connection_closed (print Command_too_long st')))).
Proof.
  apply (proj1 oversized_line_closes).
  - repeat (apply List.Forall_cons; [split|]); try apply List.Forall_nil;
      try (unfold bufferSize; simpl; lia);
      apply (bool_decide_unpack _); vm_compute; reflexivity.
  - apply (bool_decide_unpack _). vm_compute. reflexivity.
  - unfold bufferSize. rewrite repeat_length. lia.
  - repeat (apply List.Forall_cons; [discriminate|]). apply List.Forall_nil.
Defined.



(** C8, as the code has it. A line of at most 1024 bytes with its newline
    on which neither [sscanf] converts two fields (such as [add 1 zz])
    leaves the lists, the results and the bytes sent as they are and
    prints the diagnostic; the loop goes on, and the lines after it are
    handled from that state as they would be without it. *)
Theorem unparsed_line_ignored :
  (forall (command : list ascii) (st : State),
     (sscanf command format_match []).1 <> 2 ->
     (sscanf command format_add []).1 <> 2 ->
     exists st' : State,
       processCommand command st = Ok st' /\
       GBLnodeLists st' = GBLnodeLists st /\
       GBLsearchResults st' = GBLsearchResults st /\
       sent st' = sent st /\
       console st' = console st ++ [Invalid_command]) /\
  (forall (line rest : list ascii) (plan : list Arrival) (st : State),
     newline ∉ line ->
     (length line < bufferSize)%nat ->
     (sscanf (c_str line) format_match []).1 <> 2 ->
     (sscanf (c_str line) format_add []).1 <> 2 ->
     Forall (fun x => x <> Failure) plan ->
     exists t' : Transport,
       is_open t' = true /\
       read_all processCommand (mkTransport (line ++ newline :: rest) plan true) st =
       Some (and_then
               (process_all processCommand (map c_str (framing rest).1)
                            (print Invalid_command st))
               (fun st' => Ok ((framing rest).2, t', st')))) /\
  (forall st : State,
     processCommand (chars "add 1 zz") st = Ok (print Invalid_command st)).
Proof.
  split; [|split].
  - intros command st Hm Ha. exists (print Invalid_command st).
    split; [apply processCommand_invalid; assumption|]. repeat split.
  - intros line rest plan st Hn Hlen Hm Ha Hplan.
    destruct (read_all_framing processCommand (line ++ newline :: rest) plan true st Hplan)
      as (t' & Hopen & Hr).
    exists t'. split; [exact Hopen|]. rewrite Hr.
    pose proof (framing_unlines [line] rest) as Hf. unfold unlines in Hf.
    cbn [map concat] in Hf. rewrite app_nil_r, <- app_assoc in Hf. cbn [app] in Hf.
    rewrite Hf by (apply List.Forall_cons; [split; assumption|apply List.Forall_nil]).
    cbn [fst snd app map process_all].
    rewrite (processCommand_invalid _ st Hm Ha). reflexivity.
  - intros st. apply processCommand_invalid; vm_compute; discriminate.
Qed.

Lemma unparsed_line_ignored_witness :
  exists st' : State,
    processCommand (chars "add 1 zz") (store [[]; []]) = Ok st' /\
    GBLnodeLists st' = GBLnodeLists (store [[]; []]) /\
    GBLsearchResults st' = GBLsearchResults (store [[]; []]) /\
    sent st' = sent (store [[]; []]) /\
    console st' = console (store [[]; []]) ++ [Invalid_command].
Proof.
  apply (proj1 unparsed_line_ignored); vm_compute; discriminate.
Defined.

(** The line [add 1 ff extra] is in neither grammar of the spec, and it
    adds an entry and prints no diagnostic. A line of 2000 times [x] is in
    neither grammar either, and the connection is closed because of it. *)
Lemma grammar_outsider_mutates :
  (match_grammar (chars "add 1 ff extra") = false /\
   add_grammar (chars "add 1 ff extra") = false /\
   exists st' : State,
     processCommand (chars "add 1 ff extra") (store [[]; []]) = Ok st' /\
     GBLnodeLists st' = [[mkNode 1 255]; []] /\
     GBLnodeLists st' <> GBLnodeLists (store [[]; []]) /\
     console st' = [Will_add 1 255]) /\
  (match_grammar (repeat "x"%char 2000) = false /\
   add_grammar (repeat "x"%char 2000) = false /\
   exists t1 : Transport,
     serve (mkTransport (repeat "x"%char 2000 ++ [newline]) [] true)
           (store [[]; []]) =
     Some (Ok (Too_long, close t1,
               mkState [[]; []] [] []
                       [Connection_established; Command_too_long; Connection_closed]
                       [] [] []))).
Proof.
  split.
  - split; [vm_compute; reflexivity|]. split; [vm_compute; reflexivity|].
    eexists. split; [vm_compute; reflexivity|].
    split; [reflexivity|]. split; [discriminate|reflexivity].
  - split; [vm_compute; reflexivity|]. split; [vm_compute; reflexivity|].
    destruct (serve_too_long [] (repeat "x"%char 2000) [newline] [] (store [[]; []]))
      as (t1 & Hs).
    + apply List.Forall_nil.
    + intros Hin. apply list_elem_of_In, repeat_spec in Hin. discriminate.
    + rewrite repeat_length. unfold bufferSize. lia.
    + apply List.Forall_nil.
    + exists t1. exact Hs.
Qed.

(** C10. A line on whose beginning [sscanf] converts both fields of a
    format is executed as that command whatever text follows: as a search
    for the first format, as an insertion for the second; when the text
    that follows starts with white space the command and its arguments are
    those of the beginning alone. [match ff 3 extra] is in neither grammar
    of the spec and is executed as the search for [ff] within 3. *)
Theorem trailing_text_executed :
  (forall (p e : list ascii) (st : State),
     (sscanf p format_match []).1 = 2 ->
     exists h d : Z,
       sscanf (p ++ e) format_match [] = (2, [h; d]) /\
       processCommand (p ++ e) st =
       and_then (search h d (print (Will_search h d) st)) send_results) /\
  (forall (p e : list ascii) (st : State),
     (sscanf p format_add []).1 = 2 ->
     exists i h : Z,
       sscanf (p ++ e) format_add [] = (2, [i; h]) /\
       processCommand (p ++ e) st = add i h (print (Will_add i h) st)) /\
  (forall (p : list ascii) (c : ascii) (e : list ascii) (st : State),
     isspace c = true ->
     (sscanf p format_match []).1 = 2 \/ (sscanf p format_add []).1 = 2 ->
     processCommand (p ++ c :: e) st = processCommand p st) /\
  (match_grammar (chars "match ff 3 extra") = false /\
   add_grammar (chars "match ff 3 extra") = false /\
   forall st : State,
     processCommand (chars "match ff 3 extra") st =
     and_then (search 255 3 (print (Will_search 255 3) st)) send_results).
Proof.
  split; [|split; [|split]].
  - intros p e st H. destruct (sscanf_match_extend p e H) as (h & d & Hs).
    exists h, d. split; [exact Hs|]. apply processCommand_match. exact Hs.
  - intros p e st H. destruct (sscanf_add_extend p e H) as (i & h & Hs).
    exists i, h. split; [exact Hs|].
    apply processCommand_add; [apply sscanf_add_not_match; exact H | exact Hs].
  - intros p c e st. apply processCommand_space.
  - split; [vm_compute; reflexivity|]. split; [vm_compute; reflexivity|].
    intros st. apply processCommand_match. vm_compute. reflexivity.
Qed.

Lemma trailing_text_executed_witness :
  exists h d : Z,
    sscanf (chars "match ff 3" ++ chars " extra") format_match [] = (2, [h; d]) /\
    processCommand (chars "match ff 3" ++ chars " extra") (store [[]; []]) =
    and_then (search h d (print (Will_search h d) (store [[]; []]))) send_results.
Proof.
  apply (proj1 trailing_text_executed). vm_compute. reflexivity.
Defined.

(** * Further properties *)

(** ** The balance of the lists *)

Section Balance.

Variables hash dbId : Z.

Local Abbreviation e := (Node_ctor hash dbId).

(** The pass over lists that all have the length of their predecessor
    changes nothing; over lists that are all one shorter than the first
    it puts the entry into every one of them. *)
Lemma pass_level (k : nat) (rest : list (list Node)) :
  Forall (fun l => length l = k) rest ->
  pass e k rest = (rest, false) /\
  pass e (S k) rest = (map (cons e) rest, bool_decide (rest <> [])).
Proof.
  induction rest as [|next rest IH]; intros H; [split; reflexivity|].
  inversion H as [|? ? Hn Hrest]; subst. destruct (IH Hrest) as [IH0 IH1].
  cbn [pass map]. split.
  - rewrite decide_False by lia. rewrite IH0. reflexivity.
  - rewrite decide_True by lia. rewrite IH1. reflexivity.
Qed.

Lemma pass_elem (rest : list (list Node)) :
  forall prev : nat,
    (pass e prev rest).2 = true -> e ∈ concat (pass e prev rest).1.
Proof.
  induction rest as [|next rest IH]; intros prev; cbn [pass]; [discriminate|].
  destruct (decide (length next < prev)%nat); cbn [fst snd concat]; intros H.
  - apply elem_of_app. left. apply elem_of_cons. left. reflexivity.
  - apply elem_of_app. right. apply IH. exact H.
Qed.

End Balance.

Lemma level_sizes (k : nat) (rest : list (list Node)) :
  forall n : nat,
    map length rest = replicate n k ->
    Forall (fun l => length l = k) rest /\ length rest = n.
Proof.
  induction rest as [|l rest IH]; intros [|n] H; try discriminate.
  - split; [constructor|reflexivity].
  - cbn in H. injection H as Hl Hrest. destruct (IH n Hrest) as [Hf Hlen].
    split; [constructor; assumption|cbn; lia].
Qed.

Lemma sizes_level (k : nat) (rest : list (list Node)) :
  Forall (fun l => length l = k) rest ->
  map length rest = replicate (length rest) k.
Proof.
  induction 1 as [|l rest Hl _ IH]; [reflexivity|].
  cbn. rewrite Hl, IH. reflexivity.
Qed.

Lemma total_sizes (lists : list (list Node)) :
  total lists = sum_list (map length lists).
Proof.
  unfold total. induction lists as [|l lists IH]; [reflexivity|].
  cbn [concat map sum_list sum_list_with]. rewrite length_app, IH. reflexivity.
Qed.

Lemma well_formed_lists (st : State) (lists : list (list Node)) :
  length lists = length (GBLnodeLists st) ->
  well_formed st -> well_formed (set_nodeLists lists st).
Proof.
  unfold well_formed, GBLnumCores. cbn [set_nodeLists GBLnodeLists].
  intros ->. tauto.
Qed.

(** X1. When all lists but the first have the same length [k], [add]
    puts the entry into the first list alone if that has length [k] too,
    and into every list except the first if the first has length [k+1]. *)
Theorem add_on_level_lists (hash dbId : Z) (st : State) (k : nat)
    (first : list Node) (rest : list (list Node)) :
  well_formed st ->
  GBLnodeLists st = first :: rest ->
  Forall (fun l => length l = k) rest ->
  (length first = k ->
   add hash dbId st =
   Ok (set_nodeLists ((Node_ctor hash dbId :: first) :: rest) st)) /\
  (length first = S k -> rest <> [] ->
   add hash dbId st =
   Ok (set_nodeLists (first :: map (cons (Node_ctor hash dbId)) rest) st)).
Proof.
  intros Hwf Hl Hlevel.
  destruct (pass_level hash dbId k rest Hlevel) as [H0 H1].
  rewrite (add_pass hash dbId st first rest Hwf Hl).
  split.
  - intros ->. rewrite H0. reflexivity.
  - intros -> Hne. rewrite H1. cbn [fst snd].
    rewrite bool_decide_eq_true_2 by exact Hne. reflexivity.
Qed.

Lemma add_on_level_lists_witness :
  add 3 4 (store [[Node_ctor 1 2]; []; []]) =
  Ok (set_nodeLists ([Node_ctor 1 2] :: map (cons (Node_ctor 3 4)) [[]; []])
                    (store [[Node_ctor 1 2]; []; []])).
Proof.
  apply (proj2 (add_on_level_lists 3 4 (store [[Node_ctor 1 2]; []; []]) 0
                  [Node_ctor 1 2] [[]; []]
                  ltac:(unfold well_formed, GBLnumCores, Int.uint_bits; simpl; lia)
                  eq_refl
                  ltac:(repeat (apply List.Forall_cons; [reflexivity|]);
                        apply List.Forall_nil))).
  - reflexivity.
  - discriminate.
Defined.

Section Runs.

Lemma add_all_from (pairs : list (Z * Z)) :
  forall r : Result State,
    fold_left (fun r p => and_then r (add p.1 p.2)) pairs r =
    and_then r (add_all pairs).
Proof.
  unfold add_all.
  induction pairs as [|p pairs IH]; intros r; cbn [fold_left].
  - destruct r; reflexivity.
  - destruct r; cbn [and_then fold_left]; [reflexivity|].
    rewrite IH. reflexivity.
Qed.

Lemma add_all_cons (p : Z * Z) (pairs : list (Z * Z)) (st : State) :
  add_all (p :: pairs) st = and_then (add p.1 p.2 st) (add_all pairs).
Proof. unfold add_all at 1. cbn [fold_left and_then]. apply add_all_from. Qed.

Lemma add_from_level (hash dbId : Z) (st : State) (N k : nat) :
  well_formed st ->
  sizes st = replicate N k ->
  exists st' : State,
    add hash dbId st = Ok st' /\ well_formed st' /\
    sizes st' = S k :: replicate (N - 1) k.
Proof.
  intros Hwf Hs. unfold sizes in *.
  destruct (GBLnodeLists st) as [|first rest] eqn:Hl.
  { destruct Hwf as [Hlo _]. unfold GBLnumCores in Hlo. rewrite Hl in Hlo.
    cbn in Hlo. lia. }
  destruct N as [|N]; [discriminate|]. cbn in Hs. injection Hs as Hf Hr.
  destruct (level_sizes k rest N Hr) as [Hlevel Hlen].
  destruct (add_on_level_lists hash dbId st k first rest Hwf Hl Hlevel) as [Ha _].
  eexists. split; [apply Ha; exact Hf|]. split.
  - apply well_formed_lists; [rewrite Hl; reflexivity|exact Hwf].
  - cbn [set_nodeLists GBLnodeLists map length]. rewrite Hf, Hr.
    replace (S N - 1)%nat with N by lia. reflexivity.
Qed.

Lemma add_from_tilted (hash dbId : Z) (st : State) (N k : nat) :
  well_formed st ->
  (2 <= N)%nat ->
  sizes st = S k :: replicate (N - 1) k ->
  exists st' : State,
    add hash dbId st = Ok st' /\ well_formed st' /\
    sizes st' = replicate N (S k).
Proof.
  intros Hwf HN Hs. unfold sizes in *.
  destruct (GBLnodeLists st) as [|first rest] eqn:Hl; [discriminate|].
  cbn in Hs. injection Hs as Hf Hr.
  destruct (level_sizes k rest _ Hr) as [Hlevel Hlen].
  destruct (add_on_level_lists hash dbId st k first rest Hwf Hl Hlevel) as [_ Ha].
  eexists. split; [apply Ha; [exact Hf|destruct rest; [cbn in Hlen; lia|discriminate]]|].
  split.
  - apply well_formed_lists; [rewrite Hl; cbn; rewrite length_map; reflexivity|exact Hwf].
  - cbn [set_nodeLists GBLnodeLists map]. rewrite Hf.
    destruct N as [|N]; [lia|]. cbn [replicate]. f_equal.
    replace (S N - 1)%nat with N in Hlen by lia. subst N.
    clear -Hlevel. induction Hlevel as [|l rest Hl _ IH]; [reflexivity|].
    cbn. rewrite Hl, IH. reflexivity.
Qed.

(** From level lists and from lists tilted by one, for every number of
    calls. *)
Lemma add_all_level_tilted (N : nat) (pairs : list (Z * Z)) :
  (2 <= N)%nat ->
  forall (st : State) (k : nat),
    well_formed st ->
    (sizes st = replicate N k ->
     forall m : nat,
       (length pairs = (2 * m)%nat ->
        exists st', add_all pairs st = Ok st' /\ sizes st' = replicate N (k + m)%nat) /\
       (length pairs = (2 * m + 1)%nat ->
        exists st', add_all pairs st = Ok st' /\
                    sizes st' = S (k + m) :: replicate (N - 1) (k + m)%nat)) /\
    (sizes st = S k :: replicate (N - 1) k ->
     forall m : nat,
       (length pairs = (2 * m)%nat ->
        exists st', add_all pairs st = Ok st' /\
                    sizes st' = S (k + m) :: replicate (N - 1) (k + m)%nat) /\
       (length pairs = (2 * m + 1)%nat ->
        exists st', add_all pairs st = Ok st' /\
                    sizes st' = replicate N (k + m + 1)%nat)).
Proof.
  intros HN. induction pairs as [|p pairs IH]; intros st k Hwf.
  - split; intros Hs m; (split; intros Hlen; cbn in Hlen; [|lia]);
      assert (m = 0)%nat as -> by lia; exists st;
      (split; [reflexivity|]); rewrite Hs, ?Nat.add_0_r; reflexivity.
  - split; intros Hs m; rewrite add_all_cons.
    + destruct (add_from_level p.1 p.2 st N k Hwf Hs) as (st1 & -> & Hwf1 & Hs1).
      cbn [and_then length]. destruct (IH st1 k Hwf1) as [_ IHt].
      specialize (IHt Hs1). split; intros Hlen.
      * destruct m as [|m]; [lia|]. destruct (IHt m) as [_ Ho].
        destruct Ho as (st' & Ha & Hs'); [lia|].
        exists st'. split; [exact Ha|]. rewrite Hs'. f_equal. lia.
      * destruct (IHt m) as [He _]. destruct He as (st' & Ha & Hs'); [lia|].
        exists st'. split; [exact Ha|exact Hs'].
    + destruct (add_from_tilted p.1 p.2 st N k Hwf HN Hs) as (st1 & -> & Hwf1 & Hs1).
      cbn [and_then length]. destruct (IH st1 (S k) Hwf1) as [IHl _].
      specialize (IHl Hs1). split; intros Hlen.
      * destruct m as [|m]; [lia|]. destruct (IHl m) as [_ Ho].
        destruct Ho as (st' & Ha & Hs'); [lia|].
        exists st'. split; [exact Ha|]. rewrite Hs'.
        replace (S k + m)%nat with (k + S m)%nat by lia. reflexivity.
      * destruct (IHl m) as [He _]. destruct He as (st' & Ha & Hs'); [lia|].
        exists st'. split; [exact Ha|]. rewrite Hs'. f_equal. lia.
Qed.

End Runs.

(** X2. Into a store of [N >= 2] lists that are all empty, [2m] calls of
    [add] leave every list with [m] entries, [N * m] in all, and [2m + 1]
    calls leave the first list with [m + 1] and the others with [m]:
    every second call stores its entry [N - 1] times. *)
Theorem add_all_from_empty (pairs : list (Z * Z)) (st : State) (N m : nat) :
  (2 <= N)%nat ->
  well_formed st ->
  GBLnodeLists st = replicate N [] ->
  (length pairs = (2 * m)%nat ->
   exists st' : State,
     add_all pairs st = Ok st' /\
     sizes st' = replicate N m /\
     total (GBLnodeLists st') = (N * m)%nat) /\
  (length pairs = (2 * m + 1)%nat ->
   exists st' : State,
     add_all pairs st = Ok st' /\
     sizes st' = S m :: replicate (N - 1) m /\
     total (GBLnodeLists st') = (N * m + 1)%nat).
Proof.
  intros HN Hwf Hl.
  assert (Hs : sizes st = replicate N 0%nat).
  { unfold sizes. rewrite Hl. clear. induction N as [|N IH]; [reflexivity|].
    cbn. rewrite IH. reflexivity. }
  destruct (add_all_level_tilted N pairs HN st 0%nat Hwf) as [Hlevel _].
  destruct (Hlevel Hs m) as [He Ho]. cbn [Nat.add] in He, Ho. split; intros Hlen.
  - destruct (He Hlen) as (st' & Ha & Hs'). exists st'.
    split; [exact Ha|]. split; [exact Hs'|].
    rewrite total_sizes. fold (sizes st'). rewrite Hs', sum_list_replicate. reflexivity.
  - destruct (Ho Hlen) as (st' & Ha & Hs'). exists st'.
    split; [exact Ha|]. split; [exact Hs'|].
    rewrite total_sizes. fold (sizes st'). rewrite Hs'.
    cbn [sum_list sum_list_with]. rewrite sum_list_replicate.
    destruct N as [|N]; [lia|]. replace (S N - 1)%nat with N by lia. simpl. lia.
Qed.

Lemma add_all_from_empty_witness :
  exists st' : State,
    add_all [(1, 2); (3, 4); (5, 6); (7, 8)] (store (replicate 3 [])) = Ok st' /\
    sizes st' = replicate 3 2%nat /\
    total (GBLnodeLists st') = (3 * 2)%nat.
Proof.
  apply (proj1 (add_all_from_empty [(1, 2); (3, 4); (5, 6); (7, 8)]
                  (store (replicate 3 [])) 3 2
                  ltac:(lia)
                  ltac:(unfold well_formed, GBLnumCores, Int.uint_bits; simpl; lia)
                  eq_refl)).
  reflexivity.
Defined.

(** ** More on search *)

Section SearchMore.

Variables queryHash maxDistance : Z.

(** [search] ends the process with code 2 or returns with the matches;
    nothing else. *)
Lemma search_cases (st : State) :
  search queryHash maxDistance st = Halted (exit 2) \/
  exists st' : State,
    search queryHash maxDistance st = Ok st' /\
    GBLsearchResults st' ≡ₚ expected_matches queryHash maxDistance (GBLnodeLists st) /\
    GBLnodeLists st' = GBLnodeLists st /\
    sent st' = sent st /\ console st' = console st /\
    send_plan st' = send_plan st.
Proof.
  unfold search.
  destruct (create_all (Z.to_nat (GBLnumCores (set_searchResults [] st)))
                       (spawn_plan (set_searchResults [] st))) as [[rc|] plan'];
    [left; reflexivity|right].
  cbn [set_spawn_plan set_sched_plan set_searchResults
       GBLnodeLists GBLsearchResults sched_plan].
  pose proof (run_workers_perm queryHash maxDistance (hd [] (sched_plan st))
                (GBLnodeLists st) []) as Hrun.
  destruct (run_workers queryHash maxDistance (hd [] (sched_plan st))
                        (GBLnodeLists st) []) as [ws res].
  cbn [fst snd] in Hrun.
  eexists. split; [reflexivity|].
  cbn [set_searchResults GBLsearchResults GBLnodeLists sent console send_plan].
  rewrite join_all_expected. repeat split. exact Hrun.
Qed.

Lemma create_all_fails (n : nat) :
  forall plan : list Z,
    Exists (fun rc => rc <> 0) (take n plan) ->
    exists (rc : Z) (plan' : list Z), create_all n plan = (Some rc, plan').
Proof.
  induction n as [|n IH]; intros plan H; cbn [create_all].
  - rewrite take_0 in H. inversion H.
  - destruct plan as [|rc plan]; [inversion H|].
    cbn [take] in H. destruct (decide (rc = 0)) as [->|Hrc].
    + inversion H as [? ? Hne|? ? Hex]; subst; [congruence|]. apply IH. exact Hex.
    + eexists _, _. reflexivity.
Qed.

Lemma filter_all {A : Type} (P : A -> Prop) `{!forall x, Decision (P x)}
    (l : list A) :
  Forall P l -> filter P l = l.
Proof.
  induction 1 as [|x l Hx _ IH]; [reflexivity|].
  rewrite filter_cons, decide_True by exact Hx. rewrite IH. reflexivity.
Qed.

End SearchMore.

(** X3. When one of the [pthread_create] calls of a search returns an
    error, [search] ends the process with exit code 2, and so does a
    [match] command. *)
Theorem search_spawn_failure (queryHash maxDistance : Z) (st : State) :
  Exists (fun rc => rc <> 0) (take (length (GBLnodeLists st)) (spawn_plan st)) ->
  search queryHash maxDistance st = Halted (exit 2) /\
  forall command : list ascii,
    sscanf command format_match [] = (2, [queryHash; maxDistance]) ->
    processCommand command st = Halted (exit 2).
Proof.
  intros H.
  assert (Hs : forall st0 : State,
            GBLnodeLists st0 = GBLnodeLists st -> spawn_plan st0 = spawn_plan st ->
            search queryHash maxDistance st0 = Halted (exit 2)).
  { intros st0 Hl Hp. unfold search, GBLnumCores.
    cbn [set_searchResults GBLnodeLists spawn_plan]. rewrite Nat2Z.id, Hl, Hp.
    destruct (create_all_fails _ _ H) as (rc & plan' & ->). reflexivity. }
  split; [apply Hs; reflexivity|].
  intros command Hc. rewrite (processCommand_match _ _ _ _ Hc).
  rewrite Hs by reflexivity. reflexivity.
Qed.

Lemma search_spawn_failure_witness :
  search 15 0 (mkState [[]; []] [] [] [] [] [0; 11] []) = Halted (exit 2).
Proof.
  apply (search_spawn_failure 15 0 (mkState [[]; []] [] [] [] [] [0; 11] [])).
  simpl. apply Exists_cons_tl. apply Exists_cons_hd. lia.
Defined.

(** X4. After [add dbId hash], a search for [hash] with any threshold
    from 0 on returns a [Match] with that [dbId] and distance 0. *)
Theorem add_then_search_finds (dbId hash maxDistance : Z) (st : State) :
  well_formed st ->
  0 <= maxDistance ->
  Forall (fun rc => rc = 0) (take (length (GBLnodeLists st)) (spawn_plan st)) ->
  exists st1 st2 : State,
    add dbId hash st = Ok st1 /\
    search hash maxDistance st1 = Ok st2 /\
    mkMatch dbId 0 ∈ GBLsearchResults st2.
Proof.
  intros Hwf Hd Hspawn.
  destruct (GBLnodeLists st) as [|first rest] eqn:Hl.
  { destruct Hwf as [Hlo _]. unfold GBLnumCores in Hlo. rewrite Hl in Hlo.
    cbn in Hlo. lia. }
  pose proof (add_pass dbId hash st first rest Hwf Hl) as Hadd.
  set (e := Node_ctor dbId hash) in *.
  set (lists' := if (pass e (length first) rest).2
                 then first :: (pass e (length first) rest).1
                 else (e :: first) :: rest) in *.
  assert (He : e ∈ concat lists').
  { subst lists'. destruct (pass e (length first) rest).2 eqn:Hq; cbn [concat].
    - apply elem_of_app. right. apply pass_elem. exact Hq.
    - apply elem_of_cons. left. reflexivity. }
  assert (Hlen : length lists' = length (first :: rest)).
  { subst lists'. destruct (pass e (length first) rest).2; cbn [length];
      [unfold e; rewrite pass_length|]; reflexivity. }
  destruct (search_outcome hash maxDistance (set_nodeLists lists' st))
    as (st2 & Hs & Hperm & _).
  { cbn [set_nodeLists GBLnodeLists spawn_plan]. rewrite Hlen. exact Hspawn. }
  exists (set_nodeLists lists' st), st2.
  split; [exact Hadd|]. split; [exact Hs|].
  rewrite Hperm. cbn [set_nodeLists GBLnodeLists].
  unfold expected_matches, matches_of. apply list_elem_of_In, in_map_iff.
  exists e. split.
  - cbn [e Node_ctor Node_dbId Node_pHash]. rewrite distance_self. reflexivity.
  - apply list_elem_of_In, list_elem_of_filter. split; [|exact He].
    unfold within. cbn [e Node_ctor Node_pHash]. rewrite distance_self. exact Hd.
Qed.

Lemma add_then_search_finds_witness :
  exists st1 st2 : State,
    add 100 15 (store [[]; []]) = Ok st1 /\
    search 15 0 st1 = Ok st2 /\
    mkMatch 100 0 ∈ GBLsearchResults st2.
Proof.
  apply (add_then_search_finds 100 15 0 (store [[]; []])).
  - unfold well_formed, GBLnumCores, Int.uint_bits. simpl. lia.
  - lia.
  - simpl. apply List.Forall_nil.
Defined.

(** X5. With a threshold of 64 or more a search returns every stored
    entry, as many matches as there are entries, and whatever the
    threshold every distance returned is between 0 and 64. *)
Theorem search_returns_all (queryHash maxDistance : Z) (st : State) :
  Forall (fun rc => rc = 0) (take (length (GBLnodeLists st)) (spawn_plan st)) ->
  exists st' : State,
    search queryHash maxDistance st = Ok st' /\
    Forall (fun m => 0 <= Match_distance m <= 64) (GBLsearchResults st') /\
    (64 <= maxDistance ->
     GBLsearchResults st' ≡ₚ
       map (fun e => mkMatch (Node_dbId e) (distance queryHash (Node_pHash e)))
           (concat (GBLnodeLists st)) /\
     length (GBLsearchResults st') = total (GBLnodeLists st)).
Proof.
  intros Hspawn.
  destruct (search_outcome queryHash maxDistance st Hspawn) as (st' & Hs & Hperm & _).
  exists st'. split; [exact Hs|]. split.
  - rewrite Hperm. unfold expected_matches, matches_of.
    apply List.Forall_map, Forall_forall. intros x _. cbn. apply distance_range.
  - intros Hd.
    assert (Hall : GBLsearchResults st' ≡ₚ
              map (fun e => mkMatch (Node_dbId e) (distance queryHash (Node_pHash e)))
                  (concat (GBLnodeLists st))).
    { rewrite Hperm. unfold expected_matches, matches_of.
      rewrite filter_all; [reflexivity|].
      apply Forall_forall. intros x _. unfold within.
      pose proof (distance_range queryHash (Node_pHash x)). lia. }
    split; [exact Hall|]. rewrite Hall, length_map. reflexivity.
Qed.

Lemma search_returns_all_witness :
  exists st' : State,
    search 0 64 (store [[Node_ctor 1 15]; [Node_ctor 2 255]]) = Ok st' /\
    Forall (fun m => 0 <= Match_distance m <= 64) (GBLsearchResults st').
Proof.
  destruct (search_returns_all 0 64 (store [[Node_ctor 1 15]; [Node_ctor 2 255]]))
    as (st' & Hs & Hr & _).
  - simpl. apply List.Forall_nil.
  - exists st'. split; [exact Hs|exact Hr].
Defined.

Section Exact.

Lemma Pos_popcount_positive (p : positive) : 1 <= Int.Pos_popcount p.
Proof. induction p as [q IH|q IH|]; cbn [Int.Pos_popcount]; lia. Qed.

Lemma popcountl_zero (x : Z) : Int.popcountl x = 0 -> Int.to_ulong x = 0.
Proof.
  unfold Int.popcountl.
  assert (H : 0 <= Int.to_ulong x < 2 ^ 64) by (apply Z.mod_pos_bound; reflexivity).
  destruct (Int.to_ulong x) as [|p|p]; [reflexivity| |lia].
  pose proof (Pos_popcount_positive p). lia.
Qed.

Lemma distance_zero (a b : Z) :
  Int.in_u64 a -> Int.in_u64 b -> distance a b = 0 -> a = b.
Proof.
  unfold Int.in_u64, distance. intros Ha Hb H.
  apply popcountl_zero in H. unfold Int.to_ulong, Int.long_bits in H.
  apply Z.bits_inj'. intros n Hn.
  destruct (Z.lt_ge_cases n 64) as [Hlt|Hge].
  - assert (Hbit : Z.testbit (Z.lxor a b mod 2 ^ 64) n = false)
      by (rewrite H; apply Z.bits_0).
    rewrite Z.mod_pow2_bits_low, Z.lxor_spec in Hbit by lia.
    destruct (Z.testbit a n), (Z.testbit b n); cbn in Hbit; congruence.
  - rewrite <- (Z.mod_small a (2 ^ 64)), <- (Z.mod_small b (2 ^ 64)) by lia.
    rewrite !Z.mod_pow2_bits_high by lia. reflexivity.
Qed.

Lemma filter_ext_Forall {A : Type} (P Q : A -> Prop)
    `{!forall x, Decision (P x)} `{!forall x, Decision (Q x)} (l : list A) :
  Forall (fun x => P x <-> Q x) l -> filter P l = filter Q l.
Proof.
  induction 1 as [|x l Hx _ IH]; [reflexivity|].
  rewrite !filter_cons, IH.
  destruct (decide (P x)), (decide (Q x)); tauto || reflexivity.
Qed.

End Exact.

(** X6. With threshold 0 a search returns exactly the stored entries
    whose hash equals the query, each with distance 0, when query and
    stored hashes are 64-bit values. *)
Theorem search_exact (queryHash : Z) (st : State) :
  Int.in_u64 queryHash ->
  Forall (fun e => Int.in_u64 (Node_pHash e)) (concat (GBLnodeLists st)) ->
  Forall (fun rc => rc = 0) (take (length (GBLnodeLists st)) (spawn_plan st)) ->
  exists st' : State,
    search queryHash 0 st = Ok st' /\
    GBLsearchResults st' ≡ₚ
      map (fun e => mkMatch (Node_dbId e) 0)
          (filter (fun e => Node_pHash e = queryHash) (concat (GBLnodeLists st))).
Proof.
  intros Hq Hh Hspawn.
  destruct (search_outcome queryHash 0 st Hspawn) as (st' & Hs & Hperm & _).
  exists st'. split; [exact Hs|]. rewrite Hperm.
  unfold expected_matches, matches_of.
  rewrite (filter_ext_Forall (within queryHash 0)
             (fun e => Node_pHash e = queryHash)).
  - erewrite map_ext_in; [reflexivity|]. intros x Hx. cbn.
    apply list_elem_of_In, list_elem_of_filter in Hx as [-> _].
    rewrite distance_self. reflexivity.
  - eapply List.Forall_impl; [|exact Hh]. cbn. intros x Hx. unfold within. split.
    + intros Hd. pose proof (distance_range queryHash (Node_pHash x)).
      symmetry. apply distance_zero; [assumption..|lia].
    + intros ->. rewrite distance_self. lia.
Qed.

Lemma search_exact_witness :
  exists st' : State,
    search 15 0 (store [[Node_ctor 1 15]; [Node_ctor 2 14]]) = Ok st' /\
    GBLsearchResults st' ≡ₚ
      map (fun e => mkMatch (Node_dbId e) 0)
          (filter (fun e => Node_pHash e = 15)
                  (concat (GBLnodeLists (store [[Node_ctor 1 15]; [Node_ctor 2 14]])))).
Proof.
  apply (search_exact 15 (store [[Node_ctor 1 15]; [Node_ctor 2 14]])).
  - unfold Int.in_u64. lia.
  - simpl. repeat (apply List.Forall_cons; [unfold Int.in_u64; simpl; lia|]).
    apply List.Forall_nil.
  - simpl. apply List.Forall_nil.
Defined.

(** ** More on processCommand *)

Section Keywords.

(** The literal characters at the head of a format. *)
Lemma sscanf_literals (w : list ascii) (format : list Directive) (a : list Z) :
  forall s : list ascii,
    (exists s', s = w ++ s' /\ sscanf s (map Lit w ++ format) a = sscanf s' format a) \/
    (~ w `prefix_of` s /\
     ((sscanf s (map Lit w ++ format) a).1 = items a \/
      (sscanf s (map Lit w ++ format) a).1 = EOF)).
Proof.
  induction w as [|c w IH]; intros s.
  - left. exists s. split; reflexivity.
  - cbn [map app sscanf]. destruct s as [|c' s].
    + right. split.
      * intros [k Hk]. discriminate Hk.
      * cbn [fst]. destruct (on_input_failure_cases a) as [[_ ->]|[_ ->]]; auto.
    + destruct (decide (c' = c)) as [->|Hne].
      * destruct (IH s) as [(s' & -> & Hs)|[Hn Hrc]].
        -- left. exists s'. split; [reflexivity|exact Hs].
        -- right. split; [|exact Hrc].
           intros Hp. apply Hn. eapply prefix_cons_inv_2. exact Hp.
      * right. split; [|left; reflexivity].
        intros Hp. apply prefix_cons_inv_1 in Hp. congruence.
Qed.

Lemma sscanf_needs_keyword (w : list ascii) (format : list Directive)
    (s : list ascii) :
  ~ w `prefix_of` s -> (sscanf s (map Lit w ++ format) []).1 <> 2.
Proof.
  intros Hn. destruct (sscanf_literals w format [] s) as [(s' & -> & _)|[_ [H|H]]].
  - exfalso. apply Hn. exists s'. reflexivity.
  - rewrite H. cbn. discriminate.
  - rewrite H. discriminate.
Qed.

Lemma digit_value_nonneg (base : Z) (c : ascii) (d : Z) :
  digit_value base c = Some d -> 0 <= d.
Proof.
  unfold digit_value, isxdigit, isdigit.
  destruct (48 <=? code c) eqn:H1, (code c <=? 57) eqn:H2; cbn [andb orb];
    try (intros H; injection H as <-; lia).
  all: destruct (base =? 16); cbn [andb]; try discriminate.
  all: destruct (97 <=? code c) eqn:H3; cbn [andb orb].
  all: destruct (code c <=? 102) eqn:H4; cbn [andb orb].
  all: destruct (65 <=? code c) eqn:H5; cbn [andb orb].
  all: destruct (code c <=? 70) eqn:H6; cbn [andb orb].
  all: try discriminate.
  all: intros H; injection H as <-; lia.
Qed.

Lemma scan_digits_nonneg (base : Z) (s : list ascii) :
  forall (acc : Z) (n : nat),
    0 <= base -> 0 <= acc -> 0 <= (scan_digits base s acc n).1.1.
Proof.
  induction s as [|c s IH]; intros acc n Hb Ha; cbn [scan_digits]; [exact Ha|].
  destruct (digit_value base c) as [d|] eqn:Hd; [|exact Ha].
  apply IH; [exact Hb|]. pose proof (digit_value_nonneg _ _ _ Hd). nia.
Qed.

Lemma strtoul_value_range (negative : bool) (digits : Z) :
  0 <= digits -> Int.in_u64 (strtoul_value negative digits).
Proof.
  unfold strtoul_value, Int.in_u64, Int.ULONG_MAX, Int.to_ulong, Int.long_bits.
  intros H. destruct (decide (2 ^ 64 - 1 < digits)); [lia|].
  destruct negative; [apply Z.mod_pos_bound; lia|lia].
Qed.

Lemma scan_integer_range (base : Z) (s : list ascii) (v : Z) (rest : list ascii) :
  0 <= base -> scan_integer base s = Converted v rest -> Int.in_u64 v.
Proof.
  intros Hb. unfold scan_integer. destruct s as [|c s]; [discriminate|].
  destruct (scan_sign (c :: s)) as [negative s1].
  destruct (scan_prefix base s1) as [lead s2].
  pose proof (scan_digits_nonneg base s2 0 lead Hb ltac:(lia)) as Hd.
  destruct (scan_digits base s2 0 lead) as [[digits n] rest0]. cbn [fst] in Hd.
  destruct (decide (n = 0%nat)); [discriminate|].
  intros H. injection H as <- _. apply strtoul_value_range. exact Hd.
Qed.

(** The fields a format with two conversions assigns. *)
Lemma sscanf_two_fields (w : list ascii) (k1 k2 : Conversion) (s : list ascii)
    (x y : Z) :
  sscanf s (map Lit w ++ [Space; Conv k1; Space; Conv k2; Space]) [] = (2, [x; y]) ->
  exists v1 v2 : Z,
    Int.in_u64 v1 /\ Int.in_u64 v2 /\ x = stored k1 v1 /\ y = stored k2 v2.
Proof.
  intros H.
  destruct (sscanf_literals w [Space; Conv k1; Space; Conv k2; Space] [] s)
    as [(s' & -> & Hs)|[_ [Hrc|Hrc]]].
  2:{ rewrite H in Hrc. discriminate. }
  2:{ rewrite H in Hrc. discriminate. }
  rewrite Hs in H. clear Hs. cbn [sscanf] in H.
  destruct (scan_integer (base_of k1) (skip_space (skip_space s')))
    as [v1 rest1| |] eqn:H1; try discriminate.
  cbn [app] in H.
  destruct (scan_integer (base_of k2) (skip_space (skip_space rest1)))
    as [v2 rest2| |] eqn:H2; try discriminate.
  cbn [app] in H. injection H as <- <-.
  exists v1, v2. split; [|split; [|split; reflexivity]].
  - eapply scan_integer_range; [|exact H1]. destruct k1; cbn; lia.
  - eapply scan_integer_range; [|exact H2]. destruct k2; cbn; lia.
Qed.

Lemma send_loop_frame (results : list Match) :
  forall st : State,
    GBLnodeLists (send_loop results st) = GBLnodeLists st /\
    GBLsearchResults (send_loop results st) = GBLsearchResults st.
Proof.
  induction results as [|m results IH]; intros st; cbn [send_loop]; [split; reflexivity|].
  unfold send. destruct (send_plan st) as [|[k|] plan].
  - destruct (decide _); [split; reflexivity|].
    destruct (IH (set_sent (sent st ++ response m) st)) as [-> ->]. split; reflexivity.
  - destruct (decide _); [split; reflexivity|].
    destruct (IH (set_sent (sent st ++ take k (response m)) (set_send_plan plan st)))
      as [-> ->]. split; reflexivity.
  - destruct (decide _); [split; reflexivity|].
    destruct (IH (set_send_plan plan st)) as [-> ->]. split; reflexivity.
Qed.

(** What [add] may change. *)
Lemma add_frame (a b : Z) (st st' : State) :
  add a b st = Ok st' ->
  exists lists' : list (list Node), st' = set_nodeLists lists' st.
Proof.
  unfold add.
  destruct (add_loop a b _ 0 (GBLnodeLists st) false) as [[lists [|]]|];
    [| |discriminate].
  - intros H. injection H as <-. eexists. reflexivity.
  - destruct (lists !! 0%nat); [|discriminate].
    intros H. injection H as <-. eexists. reflexivity.
Qed.

Lemma match_command_cases (command : list ascii) (st : State) :
  (sscanf command format_match []).1 = 2 ->
  (exists st' : State,
     processCommand command st = Ok st' /\
     GBLnodeLists st' = GBLnodeLists st) \/
  processCommand command st = Halted (exit 2) \/
  processCommand command st = Halted index_wraps.
Proof.
  intros H. destruct (sscanf_two command format_match H) as (h & d & Hs).
  rewrite (processCommand_match _ _ _ st Hs).
  destruct (search_cases h d (print (Will_search h d) st))
    as [->|(st1 & -> & _ & Hl & _)]; [right; left; reflexivity|].
  cbn [and_then]. unfold send_results.
  destruct (decide _); [left|right; right; reflexivity].
  eexists. split; [reflexivity|].
  rewrite (proj1 (send_loop_frame _ _)). exact Hl.
Qed.

End Keywords.

(** X7. The values a converted command hands on are in range: an id and
    a hash are 64-bit values, a maximal distance lies between 0 and 255. *)
Theorem parsed_values_in_range :
  (forall (command : list ascii) (hash maxDistance : Z),
     sscanf command format_match [] = (2, [hash; maxDistance]) ->
     Int.in_u64 hash /\ 0 <= maxDistance < 256) /\
  (forall (command : list ascii) (dbId hash : Z),
     sscanf command format_add [] = (2, [dbId; hash]) ->
     Int.in_u64 dbId /\ Int.in_u64 hash).
Proof.
  split.
  - intros command hash maxDistance H.
    destruct (sscanf_two_fields (chars "match") lx hhu command _ _ H)
      as (v1 & v2 & H1 & H2 & -> & ->).
    split; [exact H1|]. cbn [stored]. unfold Int.to_uchar.
    apply Z.mod_pos_bound. lia.
  - intros command dbId hash H.
    destruct (sscanf_two_fields (chars "add") lu lx command _ _ H)
      as (v1 & v2 & H1 & H2 & -> & ->).
    split; assumption.
Qed.

Lemma parsed_values_in_range_witness :
  Int.in_u64 255 /\ 0 <= 44 < 256.
Proof.
  apply (proj1 parsed_values_in_range (chars "match ff 300") 255 44).
  vm_compute. reflexivity.
Defined.

(** X8. A line that does not begin with the letters of [match] or of
    [add], in this case and without anything before them, is answered
    with the diagnostic and changes nothing else; the empty line is one. *)
Theorem keyword_required (command : list ascii) (st : State) :
  ~ chars "match" `prefix_of` command ->
  ~ chars "add" `prefix_of` command ->
  processCommand command st = Ok (print Invalid_command st).
Proof.
  intros Hm Ha. apply processCommand_invalid.
  - apply (sscanf_needs_keyword (chars "match")). exact Hm.
  - apply (sscanf_needs_keyword (chars "add")). exact Ha.
Qed.

Lemma keyword_required_witness :
  processCommand (chars " match ff 3") (store [[]; []]) =
  Ok (print Invalid_command (store [[]; []])).
Proof.
  apply keyword_required; intros [k Hk]; discriminate Hk.
Defined.

(** X9. A [match] command never changes the lists, whatever the
    connection and the threads do: it returns with the lists as they
    were, or the process ends with code 2, or the response loop is outside
    the model; it never reads outside the array of lists. *)
Theorem match_keeps_store (command : list ascii) (st : State) :
  (sscanf command format_match []).1 = 2 ->
  (exists st' : State,
     processCommand command st = Ok st' /\
     GBLnodeLists st' = GBLnodeLists st) \/
  processCommand command st = Halted (exit 2) \/
  processCommand command st = Halted index_wraps.
Proof. apply match_command_cases. Qed.

Lemma match_keeps_store_witness :
  (exists st' : State,
     processCommand (chars "match ff 3") (store [[Node_ctor 1 2]; []]) = Ok st' /\
     GBLnodeLists st' = GBLnodeLists (store [[Node_ctor 1 2]; []])) \/
  processCommand (chars "match ff 3") (store [[Node_ctor 1 2]; []]) = Halted (exit 2) \/
  processCommand (chars "match ff 3") (store [[Node_ctor 1 2]; []]) = Halted index_wraps.
Proof.
  apply match_keeps_store. vm_compute. reflexivity.
Defined.

(** X10. An [add] command sends nothing on the connection: when it
    returns, the bytes sent and the result collection are as before, and
    the only line printed is the announcement of the insertion. *)
Theorem add_sends_nothing (command : list ascii) (st st' : State) :
  (sscanf command format_match []).1 <> 2 ->
  (sscanf command format_add []).1 = 2 ->
  processCommand command st = Ok st' ->
  sent st' = sent st /\
  GBLsearchResults st' = GBLsearchResults st /\
  send_plan st' = send_plan st /\
  exists dbId hash : Z, console st' = console st ++ [Will_add dbId hash].
Proof.
  intros Hm Ha H. destruct (sscanf_two command format_add Ha) as (i & h & Hs).
  rewrite (processCommand_add _ _ _ st Hm Hs) in H.
  destruct (add_frame _ _ _ _ H) as (lists' & ->).
  repeat split. exists i, h. reflexivity.
Qed.

Lemma add_sends_nothing_witness :
  sent (mkState [[Node_ctor 1 255]; []] [] [] [Will_add 1 255] [] [] []) =
    sent (store [[]; []]) /\
  GBLsearchResults (mkState [[Node_ctor 1 255]; []] [] [] [Will_add 1 255] [] [] []) =
    GBLsearchResults (store [[]; []]) /\
  send_plan (mkState [[Node_ctor 1 255]; []] [] [] [Will_add 1 255] [] [] []) =
    send_plan (store [[]; []]) /\
  exists dbId hash : Z,
    console (mkState [[Node_ctor 1 255]; []] [] [] [Will_add 1 255] [] [] []) =
    console (store [[]; []]) ++ [Will_add dbId hash].
Proof.
  apply (add_sends_nothing (chars "add 1 ff") (store [[]; []])).
  - vm_compute. discriminate.
  - vm_compute. reflexivity.
  - vm_compute. reflexivity.
Defined.

(** ** Invariants of the command loop *)

Section Invariants.

Context {A : Type} (process : list ascii -> A -> Result A).
Variable Inv : A -> Prop.
Variable Bad : Halt -> Prop.

Hypothesis process_keeps :
  forall (c : list ascii) (a : A),
    Inv a ->
    match process c a with
    | Ok a' => Inv a'
    | Halted h => ~ Bad h
    end.



End Invariants.

Section StoreInvariant.





End StoreInvariant.



(** ** More on readCommands *)

Section ReaderSafety.

Context {A : Type} (process : list ascii -> A -> Result A).


Lemma c_str_clean (a : list ascii) : zero ∉ a -> c_str a = a.
Proof.
  induction a as [|c a IH]; intros H; [reflexivity|].
  apply not_elem_of_cons in H as [Hc Ha]. cbn [c_str].
  rewrite decide_False by congruence. rewrite IH by exact Ha. reflexivity.
Qed.

Lemma c_str_zero (a b : list ascii) : zero ∉ a -> c_str (a ++ zero :: b) = a.
Proof.
  induction a as [|c a IH]; intros H; cbn [app c_str].
  - rewrite decide_True by reflexivity. reflexivity.
  - apply not_elem_of_cons in H as [Hc Ha].
    rewrite decide_False by congruence. rewrite IH by exact Ha. reflexivity.
Qed.

End ReaderSafety.


(** X13. What follows the last newline when the peer closes is never
    handed on: after complete lines that fit, a last line without newline
    and shorter than the buffer is dropped without a diagnostic. *)
Theorem unterminated_line_dropped (ls : list (list ascii)) (tail : list ascii)
    (plan : list Arrival) (st : State) :
  Forall (fun l => (newline ∉ l) /\ (length l < bufferSize)%nat) ls ->
  newline ∉ tail ->
  (length tail < bufferSize)%nat ->
  Forall (fun x => x <> Failure) plan ->
  verdict (readCommands (mkTransport (unlines ls ++ tail) plan true) st) =
  Some (and_then (process_all processCommand (map c_str ls) st)
                 (fun st' => Ok (Peer_closed, st'))).
Proof.
  intros Hls Hn Hlen Hplan. unfold readCommands.
  destruct (read_all_framing processCommand (unlines ls ++ tail) plan true st Hplan)
    as (t' & _ & ->).
  rewrite (framing_unlines ls tail Hls), (framing_short tail Hn Hlen).
  cbn [fst snd]. rewrite app_nil_r. unfold verdict. cbn [mbind option_bind].
  destruct (process_all processCommand (map c_str ls) st); reflexivity.
Qed.

Lemma unterminated_line_dropped_witness :
  verdict (readCommands
             (mkTransport (unlines [chars "add 1 ff"] ++ chars "match ff 3")
                          [Bytes 4] true) (store [[]; []])) =
  Some (and_then (process_all processCommand (map c_str [chars "add 1 ff"])
                              (store [[]; []]))
                 (fun st' => Ok (Peer_closed, st'))).
Proof.
  apply unterminated_line_dropped.
  - repeat (apply List.Forall_cons; [split|]); try apply List.Forall_nil;
      try (unfold bufferSize; simpl; lia);
      apply (bool_decide_unpack _); vm_compute; reflexivity.
  - apply (bool_decide_unpack _). vm_compute. reflexivity.
  - unfold bufferSize. simpl. lia.
  - repeat (apply List.Forall_cons; [discriminate|]). apply List.Forall_nil.
Defined.

(** X14. A zero byte in a line ends the command: the line is handled as
    the text before its first zero byte, and what stands between that
    byte and the newline is ignored. *)
Theorem zero_byte_ends_command (a b : list ascii) (plan : list Arrival)
    (st : State) :
  zero ∉ a ->
  newline ∉ a -> newline ∉ b ->
  (length (a ++ zero :: b) < bufferSize)%nat ->
  Forall (fun x => x <> Failure) plan ->
  verdict (readCommands (mkTransport (a ++ zero :: b ++ [newline]) plan true) st) =
  Some (and_then (processCommand a st) (fun st' => Ok (Peer_closed, st'))).
Proof.
  intros Hz Ha Hb Hlen Hplan. unfold readCommands.
  destruct (read_all_framing processCommand (a ++ zero :: b ++ [newline])
                             plan true st Hplan) as (t' & _ & ->).
  pose proof (framing_unlines [a ++ zero :: b] []) as Hf. unfold unlines in Hf.
  cbn [map concat] in Hf. rewrite !app_nil_r, <- app_assoc in Hf. cbn [app] in Hf.
  rewrite Hf.
  2:{ apply List.Forall_cons; [|apply List.Forall_nil]. split; [|exact Hlen].
      apply not_elem_of_app. split; [exact Ha|].
      apply not_elem_of_cons. split; [discriminate|exact Hb]. }
  cbn [fst snd map process_all]. rewrite (c_str_zero a b Hz).
  unfold verdict. cbn [mbind option_bind].
  destruct (processCommand a st); reflexivity.
Qed.

Lemma zero_byte_ends_command_witness :
  verdict (readCommands
             (mkTransport (chars "add 1 ff" ++ zero :: chars "zz" ++ [newline])
                          [] true) (store [[]; []])) =
  Some (and_then (processCommand (chars "add 1 ff") (store [[]; []]))
                 (fun st' => Ok (Peer_closed, st'))).
Proof.
  apply zero_byte_ends_command.
  - apply (bool_decide_unpack _). vm_compute. reflexivity.
  - apply (bool_decide_unpack _). vm_compute. reflexivity.
  - apply (bool_decide_unpack _). vm_compute. reflexivity.
  - unfold bufferSize. simpl. lia.
  - apply List.Forall_nil.
Defined.

(** ** The response loop *)

Section Responses.

Lemma to_unsigned_small (n : nat) :
  Z.of_nat n < 2 ^ 32 -> Int.to_unsigned (Z.of_nat n) = Z.of_nat n.
Proof.
  intros H. unfold Int.to_unsigned, Int.uint_bits. apply Z.mod_small. lia.
Qed.

Lemma send_loop_prefix (results : list Match) :
  Forall (fun m => Z.of_nat (length (response m)) < 2 ^ 32 - 1) results ->
  forall st : State,
    exists p : list ascii,
      sent (send_loop results st) = sent st ++ p /\
      p `prefix_of` concat (map response results) /\
      ((console (send_loop results st) = console st /\
        p = concat (map response results)) \/
       console (send_loop results st) = console st ++ [Couldnt_send]).
Proof.
  induction 1 as [|m results Hm _ IH]; intros st; cbn [send_loop map concat].
  - exists []. rewrite app_nil_r. split; [reflexivity|].
    split; [apply prefix_nil|]. left. split; reflexivity.
  - rewrite (to_unsigned_small (length (response m))) by lia. unfold send.
    destruct (send_plan st) as [|[k|] plan].
    + rewrite (to_unsigned_small (length (response m))) by lia.
      rewrite decide_False by tauto.
      destruct (IH (set_sent (sent st ++ response m) st)) as (p & Hs & Hp & Hc).
      exists (response m ++ p). cbn [set_sent sent console] in Hs, Hc.
      split; [rewrite Hs, <- app_assoc; reflexivity|].
      split; [apply prefix_app; exact Hp|].
      destruct Hc as [[Hc ->]|Hc]; [left; split; [exact Hc|reflexivity]|right; exact Hc].
    + assert (Hk : (length (take k (response m)) <= length (response m))%nat)
        by (rewrite length_take; lia).
      rewrite (to_unsigned_small (length (take k (response m)))) by lia.
      destruct (decide (Z.of_nat (length (take k (response m)))
                        ≠ Z.of_nat (length (response m)))) as [Hne|Heq].
      * exists (take k (response m)). cbn [print set_sent set_send_plan sent console].
        split; [reflexivity|].
        split; [apply prefix_app_r, prefix_take|]. right. reflexivity.
      * assert (Hfull : take k (response m) = response m).
        { apply take_ge. rewrite length_take in Heq. lia. }
        rewrite Hfull.
        destruct (IH (set_sent (sent st ++ response m) (set_send_plan plan st)))
          as (p & Hs & Hp & Hc).
        exists (response m ++ p). cbn [set_sent set_send_plan sent console] in Hs, Hc.
        split; [rewrite Hs, <- app_assoc; reflexivity|].
        split; [apply prefix_app; exact Hp|].
        destruct Hc as [[Hc ->]|Hc]; [left; split; [exact Hc|reflexivity]|right; exact Hc].
    + rewrite decide_True.
      2:{ unfold Int.to_unsigned, Int.uint_bits.
          change ((-1) mod 2 ^ 32) with (2 ^ 32 - 1). lia. }
      exists []. cbn [print set_send_plan sent console]. rewrite app_nil_r.
      split; [reflexivity|]. split; [apply prefix_nil|]. right. reflexivity.
Qed.

End Responses.

(** X15. For responses that fit the response buffer of 100 characters,
    the bytes the response loop puts on the connection are a beginning of
    the responses to the results in their order; they are all of them and
    nothing is printed, or the loop has stopped at the first [send] that
    did not take a whole response and has printed the diagnostic. The
    lists and the results are not changed. *)
Theorem responses_in_order (results : list Match) (st : State) :
  Forall (fun m => (length (response m) < 100)%nat) results ->
  exists p : list ascii,
    sent (send_loop results st) = sent st ++ p /\
    p `prefix_of` concat (map response results) /\
    ((console (send_loop results st) = console st /\
      p = concat (map response results)) \/
     console (send_loop results st) = console st ++ [Couldnt_send]) /\
    GBLnodeLists (send_loop results st) = GBLnodeLists st /\
    GBLsearchResults (send_loop results st) = GBLsearchResults st.
Proof.
  intros H. destruct (send_loop_prefix results) with (st := st)
    as (p & Hs & Hp & Hc).
  { eapply List.Forall_impl; [|exact H]. cbn. intros m Hm.
    change (2 ^ 32) with 4294967296. lia. }
  exists p. split; [exact Hs|]. split; [exact Hp|]. split; [exact Hc|].
  apply send_loop_frame.
Qed.

Lemma responses_in_order_witness :
  exists p : list ascii,
    sent (send_loop [mkMatch 100 0; mkMatch 7 3]
                    (mkState [[]] [] [] [] [Some 99%nat; Some 2%nat] [] []))
    = sent (mkState [[]] [] [] [] [Some 99%nat; Some 2%nat] [] []) ++ p /\
    p `prefix_of` concat (map response [mkMatch 100 0; mkMatch 7 3]).
Proof.
  destruct (responses_in_order [mkMatch 100 0; mkMatch 7 3]
              (mkState [[]] [] [] [] [Some 99%nat; Some 2%nat] [] []))
    as (p & Hs & Hp & _).
  - repeat (apply List.Forall_cons; [simpl; lia|]). apply List.Forall_nil.
  - exists p. split; [exact Hs|exact Hp].
Defined.

(** ** The answer to a match command *)

Section Digits.

Lemma little_double_digits (d : Decimal.uint) :
  (Decimal.nb_digits (Decimal.Little.double d) <= S (Decimal.nb_digits d))%nat /\
  (Decimal.nb_digits (Decimal.Little.succ_double d) <= S (Decimal.nb_digits d))%nat.
Proof.
  induction d as [|d [IH1 IH2]|d [IH1 IH2]|d [IH1 IH2]|d [IH1 IH2]|d [IH1 IH2]
                  |d [IH1 IH2]|d [IH1 IH2]|d [IH1 IH2]|d [IH1 IH2]|d [IH1 IH2]];
    cbn [Decimal.Little.double Decimal.Little.succ_double Decimal.nb_digits];
    split; lia.
Qed.

Lemma to_little_uint_digits (p : positive) :
  (Decimal.nb_digits (Pos.to_little_uint p) <= Pos.size_nat p)%nat.
Proof.
  induction p as [p IH|p IH|]; cbn [Pos.to_little_uint Pos.size_nat].
  - pose proof (proj2 (little_double_digits (Pos.to_little_uint p))). lia.
  - pose proof (proj1 (little_double_digits (Pos.to_little_uint p))). lia.
  - cbn. lia.
Qed.

Lemma string_of_uint_length (d : Decimal.uint) :
  String.length (NilEmpty.string_of_uint d) = Decimal.nb_digits d.
Proof.
  induction d; cbn [NilEmpty.string_of_uint String.length Decimal.nb_digits];
    congruence.
Qed.

Lemma chars_length (s : string) : length (chars s) = String.length s.
Proof.
  unfold chars. induction s as [|c s IH]; cbn; [reflexivity|].
  rewrite IH. reflexivity.
Qed.

Lemma decimal_length (n : Z) : 0 <= n < 2 ^ 64 -> (length (decimal n) <= 65)%nat.
Proof.
  intros Hn. unfold decimal. rewrite chars_length.
  destruct n as [|p|p]; [cbn; lia| |lia].
  cbn [Z.to_N N.to_uint]. unfold Pos.to_uint.
  assert (Hd : (Decimal.nb_digits (Decimal.rev (Pos.to_little_uint p)) <= 65)%nat).
  { rewrite nb_digits_rev.
    pose proof (to_little_uint_digits p) as Hp.
    assert (Hs : (Pos.size_nat p <= Pos.size_nat (2 ^ 64))%nat)
      by (apply Pos.size_nat_monotone; lia).
    change (Pos.size_nat (2 ^ 64)) with 65%nat in Hs. lia. }
  destruct (Decimal.rev (Pos.to_little_uint p)) eqn:Hr;
    try (rewrite <- Hr, string_of_uint_length in *; cbn [NilZero.string_of_uint];
         rewrite <- ?Hr);
    unfold NilZero.string_of_uint; rewrite ?string_of_uint_length; cbn; cbn in Hd; lia.
Qed.

Lemma response_length (m : Match) :
  Int.in_u64 (Match_dbId m) ->
  0 <= Match_distance m <= 64 ->
  (length (response m) <= 132)%nat.
Proof.
  intros Hi Hd. unfold response. rewrite !length_app. cbn [length chars list_ascii_of_string].
  pose proof (decimal_length (Match_dbId m) Hi) as H1.
  assert (Hu : Int.to_unsigned (Match_distance m) = Match_distance m).
  { unfold Int.to_unsigned, Int.uint_bits. apply Z.mod_small.
    change (2 ^ 32) with 4294967296. lia. }
  rewrite Hu.
  pose proof (decimal_length (Match_distance m)) as H2.
  assert (0 <= Match_distance m < 2 ^ 64) as H3
    by (change (2 ^ 64) with 18446744073709551616; lia).
  specialize (H2 H3). lia.
Qed.

End Digits.

(** X16. On a store in order, when a [match] command returns, the result
    collection holds the matches of the entries within the threshold, and
    what the connection has received is a beginning of the responses to
    them in their order: all of them, or up to the first [send] that did
    not take a whole response, which is reported. *)
Theorem match_answer (command : list ascii) (hash maxDistance : Z)
    (st st' : State) :
  store_ok st ->
  sscanf command format_match [] = (2, [hash; maxDistance]) ->
  processCommand command st = Ok st' ->
  GBLsearchResults st' ≡ₚ expected_matches hash maxDistance (GBLnodeLists st) /\
  exists p : list ascii,
    sent st' = sent st ++ p /\
    p `prefix_of` concat (map response (GBLsearchResults st')) /\
    ((p = concat (map response (GBLsearchResults st')) /\
      console st' = console st ++ [Will_search hash maxDistance]) \/
     console st' = console st ++ [Will_search hash maxDistance; Couldnt_send]).
Proof.
  intros [_ Hf] Hs H. rewrite (processCommand_match _ _ _ st Hs) in H.
  destruct (search_cases hash maxDistance (print (Will_search hash maxDistance) st))
    as [Hh|(st1 & Hs1 & Hperm & Hl & Hsent & Hcons & _)];
    [rewrite Hh in H; discriminate|].
  rewrite Hs1 in H. cbn [and_then] in H. unfold send_results in H.
  destruct (decide _); [|discriminate]. injection H as <-.
  destruct (send_loop_frame (GBLsearchResults st1) st1) as [_ Hres].
  rewrite Hres. cbn [print GBLnodeLists sent console] in Hperm, Hsent, Hcons.
  split; [exact Hperm|].
  destruct (send_loop_prefix (GBLsearchResults st1)) with (st := st1)
    as (p & Hp1 & Hp2 & Hp3).
  { rewrite Hperm. unfold expected_matches, matches_of.
    apply List.Forall_map, Forall_forall. intros x Hx.
    apply list_elem_of_In, list_elem_of_filter in Hx as [_ Hx].
    apply list_elem_of_In in Hx.
    rewrite List.Forall_forall in Hf. destruct (Hf x Hx) as [Hi _].
    pose proof (response_length
                  (mkMatch (Node_dbId x) (distance hash (Node_pHash x))) Hi
                  (distance_range _ _)) as Hlen.
    change (2 ^ 32 - 1) with 4294967295. lia. }
  exists p. rewrite Hp1, Hsent. split; [reflexivity|]. split; [exact Hp2|].
  destruct Hp3 as [[Hc ->]|Hc]; [left|right]; rewrite Hc, Hcons.
  - split; reflexivity.
  - rewrite <- app_assoc. reflexivity.
Qed.

Lemma match_answer_witness :
  GBLsearchResults
    (mkState [[Node_ctor 100 15]; []] [mkMatch 100 0]
             (chars "100 0" ++ [newline]) [Will_search 15 0] [] [] [])
  ≡ₚ expected_matches 15 0 (GBLnodeLists (store [[Node_ctor 100 15]; []])) /\
  exists p : list ascii,
    sent (mkState [[Node_ctor 100 15]; []] [mkMatch 100 0]
                  (chars "100 0" ++ [newline]) [Will_search 15 0] [] [] [])
    = sent (store [[Node_ctor 100 15]; []]) ++ p /\
    p `prefix_of`
      concat (map response
                (GBLsearchResults
                   (mkState [[Node_ctor 100 15]; []] [mkMatch 100 0]
                            (chars "100 0" ++ [newline]) [Will_search 15 0] [] [] []))) /\
    ((p = concat (map response
                    (GBLsearchResults
                       (mkState [[Node_ctor 100 15]; []] [mkMatch 100 0]
                                (chars "100 0" ++ [newline]) [Will_search 15 0] [] [] []))) /\
      console (mkState [[Node_ctor 100 15]; []] [mkMatch 100 0]
                       (chars "100 0" ++ [newline]) [Will_search 15 0] [] [] [])
      = console (store [[Node_ctor 100 15]; []]) ++ [Will_search 15 0]) \/
     console (mkState [[Node_ctor 100 15]; []] [mkMatch 100 0]
                      (chars "100 0" ++ [newline]) [Will_search 15 0] [] [] [])
     = console (store [[Node_ctor 100 15]; []]) ++ [Will_search 15 0; Couldnt_send]).
Proof.
  apply (match_answer (chars "match f 0") 15 0 (store [[Node_ctor 100 15]; []])).
  - split.
    + unfold well_formed, GBLnumCores, Int.uint_bits. simpl. lia.
    + simpl. apply List.Forall_cons; [|apply List.Forall_nil].
      unfold Int.in_u64. simpl. lia.
  - vm_compute. reflexivity.
  - vm_compute. reflexivity.
Defined.

(** ** One list *)

Section OneList.

Variables queryHash maxDistance : Z.

Lemma run_workers_single (picks : list nat) :
  forall (w : list Node) (results : list Match),
    exists w' : list Node,
      (run_workers queryHash maxDistance picks [w] results).1 = [w'] /\
      (run_workers queryHash maxDistance picks [w] results).2
        ++ matches_of queryHash maxDistance w'
      = results ++ matches_of queryHash maxDistance w.
Proof.
  induction picks as [|i picks IH]; intros w results; cbn [run_workers].
  - exists w. split; reflexivity.
  - unfold worker_step. destruct i as [|i].
    + destruct w as [|it rest]; cbn [lookup list_lookup]; [apply IH|].
      cbn [insert list_insert].
      destruct (IH rest (scan_body queryHash maxDistance results it))
        as (w' & H1 & H2).
      exists w'. split; [exact H1|]. rewrite H2, scan_body_matches, <- app_assoc.
      change (it :: rest) with ([it] ++ rest). rewrite matches_app. reflexivity.
    + cbn [lookup list_lookup]. apply IH.
Qed.

End OneList.

(** X17. With a single list the matches come in the order of the list,
    the newest entry first, however the worker is scheduled. *)
Theorem search_single_list (queryHash maxDistance : Z) (st : State)
    (l : list Node) :
  GBLnodeLists st = [l] ->
  Forall (fun rc => rc = 0) (take 1 (spawn_plan st)) ->
  exists st' : State,
    search queryHash maxDistance st = Ok st' /\
    GBLsearchResults st' =
    map (fun e => mkMatch (Node_dbId e) (distance queryHash (Node_pHash e)))
        (filter (fun e => distance queryHash (Node_pHash e) <= maxDistance) l).
Proof.
  intros Hl Hspawn. unfold search, GBLnumCores.
  cbn [set_searchResults GBLnodeLists spawn_plan]. rewrite Nat2Z.id, Hl.
  destruct (create_all_succeeds 1 (spawn_plan st) Hspawn) as [plan' Hc].
  cbn [length]. rewrite Hc.
  cbn [set_spawn_plan set_sched_plan set_searchResults
       GBLnodeLists GBLsearchResults sched_plan]. rewrite Hl.
  destruct (run_workers_single queryHash maxDistance (hd [] (sched_plan st)) l [])
    as (w' & H1 & H2).
  destruct (run_workers queryHash maxDistance (hd [] (sched_plan st)) [l] [])
    as [ws res]. cbn [fst snd] in H1, H2. subst ws.
  eexists. split; [reflexivity|].
  cbn [set_searchResults GBLsearchResults].
  rewrite join_all_expected. unfold expected_matches. cbn [concat].
  rewrite app_nil_r, H2. reflexivity.
Qed.

Lemma search_single_list_witness :
  exists st' : State,
    search 0 64 (mkState [[Node_ctor 2 3; Node_ctor 1 1]] [] [] [] [] [] [[0; 5; 0]%nat])
    = Ok st' /\
    GBLsearchResults st' =
    map (fun e => mkMatch (Node_dbId e) (distance 0 (Node_pHash e)))
        (filter (fun e => distance 0 (Node_pHash e) <= 64)
                [Node_ctor 2 3; Node_ctor 1 1]).
Proof.
  apply (search_single_list 0 64).
  - reflexivity.
  - simpl. apply List.Forall_nil.
Defined.
